(** * schema: encoding a struct into ordered URL values

    A shallow embedding of the encoder of package [schema] (the struct
    encoder with its ordered [UrlValues], and the list-based [UrlValues] of
    values.go), and the properties of its specification proved over it.

    The encoder is written against Go's [reflect] package.  The part of
    [reflect] it uses is modelled first: kinds, types with their identity,
    and values carrying their type.  A Go panic is an explicit result
    ([Panic]); Go maps are stdpp's [gmap]; a nil [error] is [None]. *)

From stdpp Require Import gmap strings list fin_maps pretty.
From Stdlib Require Import Ascii.

Set Warnings "-register-all,-clear-no-such-hyp".
Open Scope string_scope.
Open Scope list_scope.

(** ** Results of code that may panic *)

Inductive outcome (A : Type) : Type :=
| Ok (a : A)
| Panic.
Arguments Ok {A} a.
Arguments Panic {A}.

Definition obind {A B : Type} (m : outcome A) (k : A -> outcome B) : outcome B :=
  match m with
  | Ok a => k a
  | Panic => Panic
  end.

Notation "x <-! m ;; k" := (obind m (fun x => k))
  (at level 60, m at next level, right associativity, only parsing).

Definition returns {A : Type} (m : outcome A) : Prop :=
  match m with
  | Ok _ => True
  | Panic => False
  end.

(** ** reflect.Kind *)

Inductive Kind : Set :=
| Invalid | Bool
| Int | Int8 | Int16 | Int32 | Int64
| Uint | Uint8 | Uint16 | Uint32 | Uint64 | Uintptr
| Float32 | Float64 | Complex64 | Complex128
| Array | Chan | Func | Interface | Map | Ptr | Slice | String | Struct
| UnsafePointer.

#[global] Instance Kind_eq_dec : EqDecision Kind.
Proof. solve_decision. Defined.

Definition Kind_code (k : Kind) : nat :=
  match k with
  | Invalid => 0 | Bool => 1
  | Int => 2 | Int8 => 3 | Int16 => 4 | Int32 => 5 | Int64 => 6
  | Uint => 7 | Uint8 => 8 | Uint16 => 9 | Uint32 => 10 | Uint64 => 11
  | Uintptr => 12
  | Float32 => 13 | Float64 => 14 | Complex64 => 15 | Complex128 => 16
  | Array => 17 | Chan => 18 | Func => 19 | Interface => 20 | Map => 21
  | Ptr => 22 | Slice => 23 | String => 24 | Struct => 25
  | UnsafePointer => 26
  end.

Definition Kind_of_code (n : nat) : Kind :=
  match n with
  | 1 => Bool
  | 2 => Int | 3 => Int8 | 4 => Int16 | 5 => Int32 | 6 => Int64
  | 7 => Uint | 8 => Uint8 | 9 => Uint16 | 10 => Uint32 | 11 => Uint64
  | 12 => Uintptr
  | 13 => Float32 | 14 => Float64 | 15 => Complex64 | 16 => Complex128
  | 17 => Array | 18 => Chan | 19 => Func | 20 => Interface | 21 => Map
  | 22 => Ptr | 23 => Slice | 24 => String | 25 => Struct
  | 26 => UnsafePointer
  | _ => Invalid
  end.

Lemma Kind_of_code_code (k : Kind) : Kind_of_code (Kind_code k) = k.
Proof. by destruct k. Qed.

#[global] Instance Kind_countable : Countable Kind :=
  inj_countable' Kind_code Kind_of_code Kind_of_code_code.

(** ** reflect.Type

    A type is known to the encoder by its identity (the key of the
    registry), its [String()], its [Kind()] and, for pointers and slices,
    its [Elem()].  [name] is what [String()] prints; two types are
    identical when they are the same term.  [TBasic] stands for every type
    whose element type is never asked for (its kind is neither [Ptr] nor
    [Slice]); [TBasic "<nil>" Invalid] stands for the nil [reflect.Type]. *)

Inductive rtype : Type :=
| TBasic (name : string) (k : Kind)
| TPtr (name : string) (elem : rtype)
| TSlice (name : string) (elem : rtype).

#[global] Instance rtype_eq_dec : EqDecision rtype.
Proof. solve_decision. Defined.

Fixpoint rtype_tree (t : rtype) : gen_tree (string + Kind) :=
  match t with
  | TBasic n k => GenNode 0 [GenLeaf (inl n); GenLeaf (inr k)]
  | TPtr n e => GenNode 1 [GenLeaf (inl n); rtype_tree e]
  | TSlice n e => GenNode 2 [GenLeaf (inl n); rtype_tree e]
  end.

Fixpoint rtype_of_tree (g : gen_tree (string + Kind)) : rtype :=
  match g with
  | GenNode tag [GenLeaf (inl n); g'] =>
      match tag with
      | 1 => TPtr n (rtype_of_tree g')
      | 2 => TSlice n (rtype_of_tree g')
      | _ => match g' with
             | GenLeaf (inr k) => TBasic n k
             | _ => TBasic "<nil>" Invalid
             end
      end
  | _ => TBasic "<nil>" Invalid
  end.

Lemma rtype_of_tree_tree (t : rtype) : rtype_of_tree (rtype_tree t) = t.
Proof. induction t as [n k|n e IH|n e IH]; simpl; by rewrite ?IH. Qed.

#[global] Instance rtype_countable : Countable rtype :=
  inj_countable' rtype_tree rtype_of_tree rtype_of_tree_tree.

Definition nilType : rtype := TBasic "<nil>" Invalid.

Definition Type_String (t : rtype) : string :=
  match t with
  | TBasic n _ | TPtr n _ | TSlice n _ => n
  end.

Definition Type_Kind (t : rtype) : Kind :=
  match t with
  | TBasic _ k => k
  | TPtr _ _ => Ptr
  | TSlice _ _ => Slice
  end.

(** A type the Go program can have: [TBasic] never carries [Ptr] or
    [Slice]. *)
Fixpoint wf_rtype (t : rtype) : bool :=
  match t with
  | TBasic _ k => negb (bool_decide (k = Ptr)) && negb (bool_decide (k = Slice))
  | TPtr _ e | TSlice _ e => wf_rtype e
  end.

(** ** Struct fields and their metadata *)

(** Modelled from the spec: [tagOptions] and its [Contains] (cache.go is
    not among the sources): the set of options of a field, [omitempty]
    being the one the encoder asks for. *)
Definition tagOptions : Type := list string.

(** Modelled from the spec: [opts.Contains(option)], whether the option is
    among the options of the field. *)
Definition Contains (o : tagOptions) (option : string) : bool :=
  existsb (String.eqb option) o.

(** Modelled from the spec: [fieldAlias(field, tagName) -> (name, options)]
    (cache.go is not among the sources).  The tag syntax is not part of the
    encoder; a struct field is represented by its name and by what the
    resolver answers for it under each tag name. *)
Record StructField : Type := {
  Name : string;
  Alias : string -> string * tagOptions
}.

(** Modelled from the spec: the resolver [fieldAlias], which answers the
    output key of a field and its options; the key "-" leaves the field
    out. *)
Definition fieldAlias (field : StructField) (tagName : string) : string * tagOptions :=
  Alias field tagName.

(** ** reflect.Value *)

(** A floating-point number is represented by the two observations the
    encoder makes of it: whether it compares equal to zero, and what
    [strconv.FormatFloat] prints for it. *)
Record float64 : Type := {
  float_is_zero : bool;
  float_format : Ascii.ascii -> Z -> Z -> string
}.

(** The kinds of the signed integers, of the unsigned integers, of the
    floating-point numbers, and the kinds of which only the comparison
    with the zero value is ever observed. *)
Inductive IntKind : Set := KInt | KInt8 | KInt16 | KInt32 | KInt64.
Inductive UintKind : Set := KUint | KUint8 | KUint16 | KUint32 | KUint64 | KUintptr.
Inductive FloatKind : Set := KFloat32 | KFloat64.
Inductive OpaqueKind : Set :=
  KComplex64 | KComplex128 | KChan | KFunc | KInterface | KUnsafePointer.

Definition IntKind_Kind (k : IntKind) : Kind :=
  match k with
  | KInt => Int | KInt8 => Int8 | KInt16 => Int16 | KInt32 => Int32
  | KInt64 => Int64
  end.

Definition UintKind_Kind (k : UintKind) : Kind :=
  match k with
  | KUint => Uint | KUint8 => Uint8 | KUint16 => Uint16 | KUint32 => Uint32
  | KUint64 => Uint64 | KUintptr => Uintptr
  end.

Definition FloatKind_Kind (k : FloatKind) : Kind :=
  match k with
  | KFloat32 => Float32 | KFloat64 => Float64
  end.

Definition OpaqueKind_Kind (k : OpaqueKind) : Kind :=
  match k with
  | KComplex64 => Complex64 | KComplex128 => Complex128 | KChan => Chan
  | KFunc => Func | KInterface => Interface
  | KUnsafePointer => UnsafePointer
  end.

(** [VInvalid] is the zero [reflect.Value].  A value carries what its type
    is made of, so that [Value_Type] is a function of it: [n] is the name
    of its type, [elem] the element type of a pointer or slice.
    [VOpaque n k zero] is a complex number, channel, function, interface
    or unsafe pointer, [zero] telling whether it is the zero value of its
    type.  [iz], for a struct whose type implements [IsZero() bool], is
    what the method returns.  [VMap] keeps the number of entries of a map
    that is not nil; a nil slice or pointer is [None].  Values are the
    ones reached through exported fields. *)
Inductive value : Type :=
| VInvalid
| VBool (n : string) (b : bool)
| VInt (n : string) (k : IntKind) (i : Z)
| VUint (n : string) (k : UintKind) (u : N)
| VFloat (n : string) (k : FloatKind) (f : float64)
| VString (n : string) (s : string)
| VOpaque (n : string) (k : OpaqueKind) (zero : bool)
| VArray (n : string) (elems : list value)
| VMap (n : string) (len : option nat)
| VStruct (n : string) (iz : option bool) (fs : list (StructField * value))
| VPtr (n : string) (elem : rtype) (p : option value)
| VSlice (n : string) (elem : rtype) (s : option (list value)).

Definition Value_Type (v : value) : rtype :=
  match v with
  | VInvalid => nilType
  | VBool n _ => TBasic n Bool
  | VInt n k _ => TBasic n (IntKind_Kind k)
  | VUint n k _ => TBasic n (UintKind_Kind k)
  | VFloat n k _ => TBasic n (FloatKind_Kind k)
  | VString n _ => TBasic n String
  | VOpaque n k _ => TBasic n (OpaqueKind_Kind k)
  | VArray n _ => TBasic n Array
  | VMap n _ => TBasic n Map
  | VStruct n _ _ => TBasic n Struct
  | VPtr n e _ => TPtr n e
  | VSlice n e _ => TSlice n e
  end.

Definition Value_Kind (v : value) : Kind := Type_Kind (Value_Type v).

Definition IsValid (v : value) : bool :=
  match v with
  | VInvalid => false
  | _ => true
  end.

(** [v.Elem()] of a pointer: the pointee, or the zero Value when nil. *)
Definition Elem (v : value) : value :=
  match v with
  | VPtr _ _ (Some p) => p
  | _ => VInvalid
  end.

Definition Type_Elem (t : rtype) : rtype :=
  match t with
  | TPtr _ e | TSlice _ e => e
  | TBasic _ _ => nilType
  end.

(** The fields of a struct value, in declaration order, each with its
    [reflect.StructField]: [t.Field(i)] and [v.Field(i)] for
    [i < v.NumField()]. *)
Definition Fields (v : value) : list (StructField * value) :=
  match v with
  | VStruct _ _ fs => fs
  | _ => []
  end.

(** The elements of a slice value: [v.Index(j)] for [j < v.Len()]; a
    panic on a value that is no slice. *)
Definition Elements (v : value) : outcome (list value) :=
  match v with
  | VSlice _ _ (Some l) => Ok l
  | VSlice _ _ None => Ok []
  | _ => Panic
  end.

(** ** strconv *)

Definition FormatBool (b : bool) : string := if b then "true" else "false".

(** Base 10 is the only base the encoder asks for. *)
Definition FormatInt (i : Z) : string := pretty i.
Definition FormatUint (u : N) : string := pretty u.

Definition FormatFloat (f : float64) (fmt : Ascii.ascii) (prec bitSize : Z) : string :=
  float_format f fmt prec bitSize.

(** ** The scalar encoders (part_000, lines 254-280) *)

Definition encoderFunc : Type := value -> outcome string.

Definition encodeBool : encoderFunc := fun v =>
  match v with
  | VBool _ b => Ok (FormatBool b)
  | _ => Panic
  end.

Definition encodeInt : encoderFunc := fun v =>
  match v with
  | VInt _ _ i => Ok (FormatInt i)
  | _ => Panic
  end.

Definition encodeUint : encoderFunc := fun v =>
  match v with
  | VUint _ _ u => Ok (FormatUint u)
  | _ => Panic
  end.

Definition encodeFloat (v : value) (bits : Z) : outcome string :=
  match v with
  | VFloat _ _ f => Ok (FormatFloat f "f"%char 6 bits)
  | _ => Panic
  end.

Definition encodeFloat32 : encoderFunc := fun v => encodeFloat v 32.

Definition encodeFloat64 : encoderFunc := fun v => encodeFloat v 64.

(** [v.String()] does not panic on a value that is no string. *)
Definition encodeString : encoderFunc := fun v =>
  match v with
  | VString _ s => Ok s
  | VInvalid => Ok "<invalid Value>"
  | _ => Ok ("<" +:+ Type_String (Value_Type v) +:+ " Value>")
  end.

(** The closure [typeEncoder] returns for a pointer type; [f] is the
    encoder resolved for the pointee type, nil ([None]) when there is none:
    calling a nil function panics. *)
Definition ptrEncoder (f : option encoderFunc) : encoderFunc := fun v =>
  match v with
  | VPtr _ _ None => Ok "null"
  | VPtr _ _ (Some p) =>
      match f with
      | Some f => f p
      | None => Panic
      end
  | _ => Panic
  end.

(** typeEncoder (part_000, lines 223-252). *)
Fixpoint typeEncoder (t : rtype) (reg : gmap rtype encoderFunc) : option encoderFunc :=
  match reg !! t with
  | Some f => Some f
  | None =>
      match Type_Kind t, t with
      | Bool, _ => Some encodeBool
      | (Int | Int8 | Int16 | Int32 | Int64), _ => Some encodeInt
      | (Uint | Uint8 | Uint16 | Uint32 | Uint64), _ => Some encodeUint
      | Float32, _ => Some encodeFloat32
      | Float64, _ => Some encodeFloat64
      | Ptr, TPtr _ elem =>
          let f := typeEncoder elem reg in
          Some (ptrEncoder f)
      | String, _ => Some encodeString
      | _, _ => None
      end
  end.

(** ** Errors *)

(** Modelled from the spec: [MultiError], the composite error, a map from
    the name of a type to the error met while encoding a field of that
    type (decoder.go is not among the sources).  The other errors are the
    one of [errors.New] and the one of [fmt.Errorf("schema: encoder not
    found for %v", v)]. *)
Inductive error : Type :=
| errorString (s : string)
| encoderNotFound (v : value)
| MultiError (m : gmap string error).

(** ** UrlValues (part_000, lines 14-53) *)

Record UrlValues : Type := {
  keys : list string;
  values : gmap string (list string)
}.

Module UrlValues.

(** Values (lines 21-23). *)
Definition Values (v : UrlValues) : gmap string (list string) := values v.

Section Render.
(** [url.QueryEscape], of the standard library. *)
Variable QueryEscape : string -> string.

(** The body of the inner loop (lines 35-40): one pair written to the
    buffer, after a separator when the buffer is not empty. *)
Definition writePair (buf keyEscaped x : string) : string :=
  let buf := if bool_decide (0 < String.length buf) then buf +:+ "&" else buf in
  buf +:+ keyEscaped +:+ "=" +:+ QueryEscape x.

(** Encode (lines 26-44). *)
Definition Encode (v : UrlValues) : string :=
  if bool_decide (size (values v) = 0) then ""
  else
    fold_left
      (fun buf k =>
         let vs := values v !!! k in
         let keyEscaped := QueryEscape k in
         fold_left (fun buf x => writePair buf keyEscaped x) vs buf)
      (keys v) "".
End Render.

(** [append(keys[:i], keys[i+1:]...)] at the first [i] with
    [keys[i] == key]. *)
Fixpoint removeFirst (key : string) (ks : list string) : list string :=
  match ks with
  | [] => []
  | x :: ks' => if String.eqb x key then ks' else x :: removeFirst key ks'
  end.

(** removeKey (lines 46-53). *)
Definition removeKey (v : UrlValues) (key : string) : UrlValues :=
  {| keys := removeFirst key (keys v); values := values v |}.

End UrlValues.

(** ** Encoder (part_000, lines 55-216) *)

(** Modelled from the spec: the cache of the encoder (cache.go is not among
    the sources), of which the encoder reads the alias tag name. *)
Record cache : Type := { tag : string }.

(** Modelled from the spec: [newCache()]; the default tag is "schema"
    (part_000, line 97). *)
Definition newCache : cache := {| tag := "schema" |}.

Record Encoder : Type := {
  Encoder_cache : cache;
  regenc : gmap rtype encoderFunc
}.

(** isValidStructPointer (lines 103-105). *)
Definition isValidStructPointer (v : value) : bool :=
  bool_decide (Type_Kind (Value_Type v) = Ptr)
  && IsValid (Elem v)
  && bool_decide (Type_Kind (Value_Type (Elem v)) = Struct).

(** isZero (lines 107-135).  [z = z && isZero(x)] asks for [isZero(x)] only
    while [z] holds.  Comparing two function values panics, and so does
    asking the zero Value for its type. *)
Fixpoint isZero (v : value) : outcome bool :=
  match v with
  | VOpaque _ KFunc _ => Panic
  | VMap _ len =>
      Ok (match len with None => true | Some n => bool_decide (n = 0) end)
  | VSlice _ _ s =>
      Ok (match s with None => true | Some l => bool_decide (length l = 0) end)
  | VArray _ elems =>
      fold_left
        (fun z x => z <-! z ;; if z : bool then isZero x else Ok false)
        elems (Ok true)
  | VStruct _ iz fs =>
      match iz with
      | Some b => Ok b
      | None =>
          fold_left
            (fun z f => z <-! z ;;
               let '(_, x) := f in if z : bool then isZero x else Ok false)
            fs (Ok true)
      end
  | VInvalid => Panic
  | VBool _ b => Ok (negb b)
  | VInt _ _ i => Ok (bool_decide (i = 0%Z))
  | VUint _ _ u => Ok (bool_decide (u = 0%N))
  | VFloat _ _ f => Ok (float_is_zero f)
  | VString _ s => Ok (bool_decide (s = ""))
  | VOpaque _ _ zero => Ok zero
  | VPtr _ _ p => Ok (bool_decide (p = None))
  end.

Module Encoder.

(** NewEncoder (lines 62-64). *)
Definition NewEncoder : Encoder :=
  {| Encoder_cache := newCache; regenc := ∅ |}.

(** RegisterEncoder (lines 92-94); [value] is [reflect.ValueOf] of the
    example value, its type the key. *)
Definition RegisterEncoder (e : Encoder) (value : value) (encoder : encoderFunc) : Encoder :=
  {| Encoder_cache := Encoder_cache e;
     regenc := <[Value_Type value := encoder]> (regenc e) |}.

(** SetAliasTag (lines 98-100). *)
Definition SetAliasTag (e : Encoder) (tag : string) : Encoder :=
  {| Encoder_cache := {| tag := tag |}; regenc := regenc e |}.

(** hasCustomEncoder (lines 218-221). *)
Definition hasCustomEncoder (e : Encoder) (t : rtype) : bool :=
  bool_decide (is_Some (regenc e !! t)).

(** [errors[key] = err] when [err != nil] (lines 157-159, 181-183). *)
Definition recordError (errors : gmap string error) (key : string) (err : option error)
  : gmap string error :=
  match err with
  | Some err => <[key := err]> errors
  | None => errors
  end.

(** Lines 172-175: the key is recorded when it is new, and the value
    appended to the values of the key. *)
Definition appendValue (uv : UrlValues) (name value : string) : UrlValues :=
  {| keys := match values uv !! name with
             | Some _ => keys uv
             | None => keys uv ++ [name]
             end;
     values := <[name := (values uv !!! name) ++ [value]]> (values uv) |}.

(** Lines 202-206: the key is moved to the end of the keys, and its
    values start empty. *)
Definition resetKey (uv : UrlValues) (name : string) : UrlValues :=
  let uv := match values uv !! name with
            | Some _ => UrlValues.removeKey uv name
            | None => uv
            end in
  {| keys := keys uv ++ [name]; values := <[name := []]> (values uv) |}.

(** Lines 207-209: the elements of the slice, encoded in turn and
    appended to the values of the key. *)
Definition appendElems (encFunc : encoderFunc) (name : string)
    (elems : list value) (uv : UrlValues) : outcome UrlValues :=
  fold_left
    (fun acc x =>
       uv <-! acc ;;
       s <-! encFunc x ;;
       Ok {| keys := keys uv;
             values := <[name := (values uv !!! name) ++ [s]]> (values uv) |})
    elems (Ok uv).

(** The body of the loop over the fields (lines 149-209), for the field
    [field] holding [fv]; [encode] is the encoder called on a nested
    struct, [uv] and [errors] are the values and the errors so far. *)
Definition encodeField (e : Encoder)
    (encode : value -> UrlValues -> outcome (UrlValues * option error))
    (field : StructField) (fv : value)
    (uv : UrlValues) (errors : gmap string error)
  : outcome (UrlValues * gmap string error) :=
  let '(name, opts) := fieldAlias field (tag (Encoder_cache e)) in
  if String.eqb name "-" then Ok (uv, errors)
  else if isValidStructPointer fv && negb (hasCustomEncoder e (Value_Type fv)) then
    match fv with
    | VPtr _ _ (Some elem) =>
        r <-! encode elem uv ;;
        Ok (r.1, recordError errors (Type_String (Value_Type elem)) r.2)
    | _ => Panic
    end
  else
    match typeEncoder (Value_Type fv) (regenc e) with
    | Some encFunc =>
        value <-! encFunc fv ;;
        skip <-! (if Contains opts "omitempty" then isZero fv else Ok false) ;;
        if skip : bool then Ok (uv, errors)
        else Ok (appendValue uv name value, errors)
    | None =>
        if bool_decide (Type_Kind (Value_Type fv) = Struct) then
          r <-! encode fv uv ;;
          Ok (r.1, recordError errors (Type_String (Value_Type fv)) r.2)
        else
          let encFunc :=
            if bool_decide (Type_Kind (Value_Type fv) = Slice)
            then typeEncoder (Type_Elem (Value_Type fv)) (regenc e)
            else None in
          match encFunc with
          | None =>
              Ok (uv, <[Type_String (Value_Type fv) := encoderNotFound fv]> errors)
          | Some encFunc =>
              elems <-! Elements fv ;;
              if bool_decide (length elems = 0) && Contains opts "omitempty"
              then Ok (uv, errors)
              else
                uv <-! appendElems encFunc name elems (resetKey uv name) ;;
                Ok (uv, errors)
          end
    end.

(** The loop over the fields (lines 148-210), from the values [uv] and
    the errors [errors]. *)
Definition encodeLoop (e : Encoder)
    (encode : value -> UrlValues -> outcome (UrlValues * option error))
    (fs : list (StructField * value))
    (uv : UrlValues) (errors : gmap string error)
  : outcome (UrlValues * gmap string error) :=
  fold_left
    (fun st f =>
       st <-! st ;;
       let '(field, fv) := f in encodeField e encode field fv st.1 st.2)
    fs (Ok (uv, errors)).

(** The errors start empty (line 146); after the loop they are returned
    when there is one, and nil otherwise (lines 212-215). *)
Definition encodeFields (e : Encoder)
    (encode : value -> UrlValues -> outcome (UrlValues * option error))
    (fs : list (StructField * value)) (uv : UrlValues)
  : outcome (UrlValues * option error) :=
  st <-! encodeLoop e encode fs uv ∅ ;;
  if bool_decide (0 < size st.2)
  then Ok (st.1, Some (MultiError st.2))
  else Ok (st.1, None).

(** encode (lines 137-216).  The value is dereferenced once when it is a
    pointer, and must then be a struct ([encode_unfold] below states the
    function in the shape of the source). *)
Fixpoint encode (e : Encoder) (v : value) (uv : UrlValues) {struct v}
  : outcome (UrlValues * option error) :=
  match v with
  | VPtr _ _ (Some (VStruct _ _ fs)) | VStruct _ _ fs =>
      encodeFields e (encode e) fs uv
  | _ => Ok (uv, Some (errorString "schema: interface must be a struct"))
  end.

(** Encode (lines 69-76): [src] is [reflect.ValueOf] of the source, [dst]
    the map of the caller, which the call writes to. *)
Definition Encode (e : Encoder) (src : value) (dst : gmap string (list string))
  : outcome (gmap string (list string) * option error) :=
  r <-! encode e src {| keys := []; values := dst |} ;;
  Ok (values r.1, r.2).

(** EncodeValues (lines 79-89). *)
Definition EncodeValues (e : Encoder) (src : value)
  : outcome (option UrlValues * option error) :=
  r <-! encode e src {| keys := []; values := ∅ |} ;;
  match r.2 with
  | Some err => Ok (None, Some err)
  | None => Ok (Some r.1, None)
  end.

End Encoder.

(** ** The list-based UrlValues (values.go) *)

Module ListValues.

Record UrlValue : Type := { Key : string; Value : string }.

Abbreviation UrlValues := (list UrlValue).

(** Values (values.go, lines 15-21). *)
Definition Values (v : UrlValues) : gmap string (list string) :=
  fold_left (fun m p => <[Key p := (m !!! Key p) ++ [Value p]]> m) v ∅.

Section Render.
Variable QueryEscape : string -> string.

(** Encode (values.go, lines 23-38). *)
Definition Encode (v : UrlValues) : string :=
  if bool_decide (length v = 0) then ""
  else
    fold_left
      (fun buf p =>
         let keyEscaped := QueryEscape (Key p) in
         let buf := if bool_decide (0 < String.length buf) then buf +:+ "&" else buf in
         buf +:+ keyEscaped +:+ "=" +:+ QueryEscape (Value p))
      v "".
End Render.

End ListValues.

(** * Definitions for the statements *)

(** The ordered UrlValues that holds a sequence of pairs, in the words of
    the specification: the keys in the order of their first occurrence,
    and under each key its values in the order of the pairs. *)
Fixpoint firstOccurrences (ks : list string) : list string :=
  match ks with
  | [] => []
  | k :: ks' => k :: filter (fun x => x ≠ k) (firstOccurrences ks')
  end.

Definition valuesOf (ps : ListValues.UrlValues) (k : string) : list string :=
  ListValues.Value <$> filter (fun p => ListValues.Key p = k) ps.

Definition orderedOf (ps : ListValues.UrlValues) : UrlValues :=
  let ks := firstOccurrences (ListValues.Key <$> ps) in
  {| keys := ks;
     values := list_to_map ((fun k => (k, valuesOf ps k)) <$> ks) |}.

(** All pairs sharing a key are contiguous: between two pairs of one key
    there are only pairs of that key. *)
Definition contiguous (ps : ListValues.UrlValues) : Prop :=
  forall l1 p l2 q l3,
    ps = l1 ++ p :: l2 ++ q :: l3 ->
    ListValues.Key p = ListValues.Key q ->
    Forall (fun r => ListValues.Key r = ListValues.Key p) l2.

(** The fields for which the error "encoder not found" is recorded: not
    left out by the alias "-", no struct, and no encoder for the type nor,
    for a slice, for the element type. *)
Definition unencodable (e : Encoder) (f : StructField * value) : bool :=
  negb (String.eqb (fieldAlias f.1 (tag (Encoder_cache e))).1 "-")
  && negb (bool_decide (is_Some (typeEncoder (Value_Type f.2) (regenc e))))
  && negb (bool_decide (Type_Kind (Value_Type f.2) = Struct))
  && (negb (bool_decide (Type_Kind (Value_Type f.2) = Slice))
      || negb (bool_decide (is_Some (typeEncoder (Type_Elem (Value_Type f.2)) (regenc e))))).

(** What a field does to the errors: nothing, or one entry written. *)
Definition writeError (w : option (string * error)) (errors : gmap string error)
  : gmap string error :=
  match w with
  | Some (k, err) => <[k := err]> errors
  | None => errors
  end.

(** The pairs of ordered values in the order [UrlValues.Encode] writes
    them: key by key, and under a key value by value. *)
Definition pairsOf (uv : UrlValues) : list (string * string) :=
  k ← keys uv; (fun x => (k, x)) <$> (values uv !!! k).

(** The pairs written to a buffer one after the other. *)
Definition renderPairs (QueryEscape : string -> string)
    (ps : list (string * string)) (buf : string) : string :=
  fold_left
    (fun buf p => UrlValues.writePair QueryEscape buf (QueryEscape p.1) p.2)
    ps buf.

(** The strings of the elements of a slice, when the encoder returns on
    each of them. *)
Fixpoint encodeAll (f : encoderFunc) (elems : list value) : option (list string) :=
  match elems with
  | [] => Some []
  | x :: elems' =>
      match f x, encodeAll f elems' with
      | Ok s, Some strs => Some (s :: strs)
      | _, _ => None
      end
  end.

(** The strings a field is encoded to under its own alias: the one string
    of the encoder resolved for its type, or, for a slice without such an
    encoder, the strings of its elements.  [None] for the fields encoded
    otherwise: a struct or a pointer to a struct that [encode] descends
    into, a field without encoder, an encoder that panics. *)
Definition directValues (e : Encoder) (fv : value) : option (list string) :=
  if isValidStructPointer fv && negb (Encoder.hasCustomEncoder e (Value_Type fv))
  then None
  else
    match typeEncoder (Value_Type fv) (regenc e) with
    | Some f => match f fv with Ok s => Some [s] | Panic => None end
    | None =>
        match fv with
        | VSlice _ elem s =>
            match typeEncoder elem (regenc e) with
            | Some f => encodeAll f (default [] s)
            | None => None
            end
        | _ => None
        end
    end.

(** The pairs of a sequence of keys, each with its values. *)
Definition fieldPairs (ks : list string) (vss : list (list string))
  : list (string * string) :=
  kv ← zip ks vss; (fun x => (kv.1, x)) <$> kv.2.

(** The alias and the options [fieldAlias] answers for a field under the
    tag name of the encoder. *)
Definition aliasOf (e : Encoder) (f : StructField * value) : string :=
  (fieldAlias f.1 (tag (Encoder_cache e))).1.

Definition optionsOf (e : Encoder) (f : StructField * value) : tagOptions :=
  (fieldAlias f.1 (tag (Encoder_cache e))).2.

(** [contiguous], decided: after a pair and the pairs of its key that
    follow it at once, its key does not come back. *)
Fixpoint skipKey (k : string) (ps : ListValues.UrlValues) : ListValues.UrlValues :=
  match ps with
  | [] => []
  | p :: ps' => if decide (ListValues.Key p = k) then skipKey k ps' else ps
  end.

Fixpoint contiguousb (ps : ListValues.UrlValues) : bool :=
  match ps with
  | [] => true
  | p :: ps' =>
      bool_decide (ListValues.Key p ∉ ListValues.Key <$> skipKey (ListValues.Key p) ps')
      && contiguousb ps'
  end.

(** No key is listed twice, and every listed key has values. *)
Definition keys_ok (uv : UrlValues) : Prop :=
  NoDup (keys uv) /\ forall k, k ∈ keys uv -> is_Some (values uv !! k).

(** What [encode] is asked to keep: the invariant of the values. *)
Definition keeps_keys_ok
    (encode : value -> UrlValues -> outcome (UrlValues * option error))
    (v : value) : Prop :=
  forall uv uv' err, keys_ok uv -> encode v uv = Ok (uv', err) -> keys_ok uv'.

(** Induction on values, with the hypothesis for the fields of a struct,
    the pointee of a pointer and the elements of an array or slice. *)
Section ValueInduction.
Variable P : value -> Prop.
Hypothesis HInvalid : P VInvalid.
Hypothesis HBool : forall n b, P (VBool n b).
Hypothesis HInt : forall n k i, P (VInt n k i).
Hypothesis HUint : forall n k u, P (VUint n k u).
Hypothesis HFloat : forall n k f, P (VFloat n k f).
Hypothesis HString : forall n s, P (VString n s).
Hypothesis HOpaque : forall n k zero, P (VOpaque n k zero).
Hypothesis HArray : forall n elems, Forall P elems -> P (VArray n elems).
Hypothesis HMap : forall n len, P (VMap n len).
Hypothesis HStruct : forall n iz fs, Forall (fun f => P f.2) fs -> P (VStruct n iz fs).
Hypothesis HPtrNil : forall n elem, P (VPtr n elem None).
Hypothesis HPtr : forall n elem x, P x -> P (VPtr n elem (Some x)).
Hypothesis HSliceNil : forall n elem, P (VSlice n elem None).
Hypothesis HSlice : forall n elem l, Forall P l -> P (VSlice n elem (Some l)).

Fixpoint value_ind' (v : value) : P v :=
  match v with
  | VInvalid => HInvalid
  | VBool n b => HBool n b
  | VInt n k i => HInt n k i
  | VUint n k u => HUint n k u
  | VFloat n k f => HFloat n k f
  | VString n s => HString n s
  | VOpaque n k zero => HOpaque n k zero
  | VArray n elems =>
      HArray n elems
        ((fix go (l : list value) : Forall P l :=
            match l with
            | [] => @List.Forall_nil _ P
            | x :: l' => @List.Forall_cons _ P x l' (value_ind' x) (go l')
            end) elems)
  | VMap n len => HMap n len
  | VStruct n iz fs =>
      HStruct n iz fs
        ((fix go (l : list (StructField * value)) : Forall (fun f => P f.2) l :=
            match l with
            | [] => @List.Forall_nil _ _
            | f :: l' =>
                @List.Forall_cons _ (fun f => P f.2) f l'
                  (match f return P f.2 with (_, x) => value_ind' x end) (go l')
            end) fs)
  | VPtr n elem None => HPtrNil n elem
  | VPtr n elem (Some x) => HPtr n elem x (value_ind' x)
  | VSlice n elem None => HSliceNil n elem
  | VSlice n elem (Some l) =>
      HSlice n elem l
        ((fix go (l : list value) : Forall P l :=
            match l with
            | [] => @List.Forall_nil _ P
            | x :: l' => @List.Forall_cons _ P x l' (value_ind' x) (go l')
            end) l)
  end.
End ValueInduction.

(** One pair as it is rendered: the escaped key, [=], the escaped value. *)
Definition pairString (QueryEscape : string -> string) (p : string * string) : string :=
  QueryEscape p.1 +:+ "=" +:+ QueryEscape p.2.

(** The keys listed are the keys of the map, each listed once. *)
Definition keys_exact (uv : UrlValues) : Prop :=
  NoDup (keys uv) /\ forall k, k ∈ keys uv <-> is_Some (values uv !! k).

(** The values a run leaves, without what it leaves beside them. *)
Definition valuesLeft {A : Type} (r : outcome (UrlValues * A)) : outcome UrlValues :=
  match r with
  | Ok (uv, _) => Ok uv
  | Panic => Panic
  end.

(** The types whose resolution looks [t] up: the type itself and the
    pointers to such a type. *)
Fixpoint resolvesThrough (t' t : rtype) : bool :=
  bool_decide (t' = t)
  || match t' with
     | TPtr _ elem => resolvesThrough elem t
     | _ => false
     end.


(** [encode] on [v] takes values to values that [R] relates to them. *)
Definition related (R : UrlValues -> UrlValues -> Prop)
    (encode : value -> UrlValues -> outcome (UrlValues * option error))
    (v : value) : Prop :=
  forall uv uv' err, encode v uv = Ok (uv', err) -> R uv uv'.

(** The string of a value of a kind with a built-in encoder: booleans,
    the integers other than [uintptr], floating-point numbers, strings. *)
Definition scalarString (v : value) : option string :=
  match v with
  | VBool _ b => Some (FormatBool b)
  | VInt _ _ i => Some (FormatInt i)
  | VUint _ KUintptr _ => None
  | VUint _ _ u => Some (FormatUint u)
  | VFloat _ KFloat32 f => Some (FormatFloat f "f"%char 6 32)
  | VFloat _ KFloat64 f => Some (FormatFloat f "f"%char 6 64)
  | VString _ s => Some s
  | _ => None
  end.

(** * Sample values *)

(** [url.QueryEscape], for the examples: letters, digits and [-_.~] are
    kept, a space becomes [+], and every other byte its [%XX]. *)
Definition isUnreserved (c : ascii) : bool :=
  let n := N_of_ascii c in
  ((97 <=? n) && (n <=? 122) || (65 <=? n) && (n <=? 90)
   || (48 <=? n) && (n <=? 57)
   || (n =? 45) || (n =? 95) || (n =? 46) || (n =? 126))%N.

Definition upperhex (n : N) : ascii :=
  match String.get (N.to_nat n) "0123456789ABCDEF" with
  | Some c => c
  | None => "0"%char
  end.

Fixpoint queryEscape (s : string) : string :=
  match s with
  | EmptyString => EmptyString
  | String.String c s' =>
      if isUnreserved c then String.String c (queryEscape s')
      else if Ascii.eqb c " "%char then String.String "+"%char (queryEscape s')
      else String.String "%"%char
             (String.String (upperhex (N_of_ascii c / 16))
                (String.String (upperhex (N_of_ascii c mod 16)) (queryEscape s')))
  end.

(** A field whose alias and options are the same under every tag name. *)
Definition sampleField (name alias : string) (opts : tagOptions) : StructField :=
  {| Name := name; Alias := fun _ => (alias, opts) |}.

Definition tString : rtype := TBasic "string" String.
Definition tInt : rtype := TBasic "int" Int.
Definition tMap : rtype := TBasic "map[string]int" Map.
Definition tInner : rtype := TBasic "schema.Inner" Struct.
Definition tStrings : rtype := TSlice "[]string" tString.

Definition vString (s : string) : value := VString "string" s.
Definition vInt (i : Z) : value := VInt "int" KInt i.
Definition vStrings (l : list string) : value :=
  VSlice "[]string" tString (Some (vString <$> l)).
Definition vMap : value := VMap "map[string]int" (Some 1).

Definition fresh : UrlValues := {| keys := []; values := ∅ |}.

(** The example of the specification:
    [{Name: "a", Tags: ["x","y"], Skip: "ignored" (key "-")}]. *)
Definition sampleTagged : value :=
  VStruct "schema.Tagged" None
    [(sampleField "Name" "Name" [], vString "a");
     (sampleField "Tags" "Tags" [], vStrings ["x"; "y"]);
     (sampleField "Skip" "-" [], vString "ignored")].

Definition sampleMixed : list (StructField * value) :=
  [(sampleField "A" "a" [], vString "x"); (sampleField "M" "m" [], vMap)].

(** What encoding the field [A] alone leaves. *)
Definition sampleRest : UrlValues :=
  {| keys := ["a"]; values := {[ "a" := ["x"] ]} |}.

(** An encoder registered for the slice type [[]string]. *)
Definition joined : encoderFunc := fun _ => Ok "joined".

Definition withJoined : Encoder :=
  Encoder.RegisterEncoder Encoder.NewEncoder (vStrings []) joined.

Definition tagsBefore : UrlValues :=
  {| keys := ["tags"; "name"];
     values := {[ "tags" := ["old"]; "name" := ["n"] ]} |}.

(** [Outer{A string "a"; B string "b"; In Inner "in"}] with
    [Inner{X []string "a"}]: the aliases of the fields are distinct, none
    is "-", and none carries an option. *)
Definition sampleOuter : list (StructField * value) :=
  [(sampleField "A" "a" [], vString "1");
   (sampleField "B" "b" [], vString "2");
   (sampleField "In" "in" [],
    VStruct "schema.Inner" None [(sampleField "X" "a" [], vStrings ["x"; "y"])])].

Definition sampleFlat : list (StructField * value) :=
  [(sampleField "Name" "Name" [], vString "a");
   (sampleField "Tags" "Tags" [], vStrings ["x"; "y"])].

Definition sampleInner : value :=
  VStruct "schema.Inner" None [(sampleField "A" "a" [], vInt 0)].

Definition withPointer : gmap rtype encoderFunc :=
  {[ TPtr "*int" tInt := (fun _ => Ok "custom") : encoderFunc ]}.

Definition samplePairs : ListValues.UrlValues :=
  [ {| ListValues.Key := "a"; ListValues.Value := "1" |};
    {| ListValues.Key := "a"; ListValues.Value := "2" |};
    {| ListValues.Key := "b c"; ListValues.Value := "3" |} ].

(** * Properties *)

(** ** The encoder in the shape of its source *)

Lemma Value_Kind_Struct (v : value) :
  Value_Kind v = Struct -> exists n iz fs, v = VStruct n iz fs.
Proof.
  destruct v as [| | ? k ?| ? k ?| ? k ?| | ? k ?| | | | |]; try destruct k;
    try discriminate; eauto.
Qed.

Lemma Value_Kind_Ptr (v : value) :
  Value_Kind v = Ptr -> exists n elem p, v = VPtr n elem p.
Proof.
  destruct v as [| | ? k ?| ? k ?| ? k ?| | ? k ?| | | | |]; try destruct k;
    try discriminate; eauto.
Qed.

Lemma Value_Kind_Slice (v : value) :
  Value_Kind v = Slice -> exists n elem s, v = VSlice n elem s.
Proof.
  destruct v as [| | ? k ?| ? k ?| ? k ?| | ? k ?| | | | |]; try destruct k;
    try discriminate; eauto.
Qed.

(** Lines 137-144 as they are written: one dereference of a pointer, the
    test of the kind, and then the fields. *)
Lemma encode_unfold (e : Encoder) (v : value) (uv : UrlValues) :
  Encoder.encode e v uv =
    let v := if bool_decide (Value_Kind v = Ptr) then Elem v else v in
    if bool_decide (Value_Kind v ≠ Struct)
    then Ok (uv, Some (errorString "schema: interface must be a struct"))
    else Encoder.encodeFields e (Encoder.encode e) (Fields v) uv.
Proof.
  destruct v as [| | ? k ?| ? k ?| ? k ?| | ? k ?| | | | ? ? p |]; try destruct k;
    try reflexivity.
  destruct p as [v|]; [|reflexivity].
  destruct v as [| | ? k ?| ? k ?| ? k ?| | ? k ?| | | | |]; try destruct k;
    reflexivity.
Qed.

(** ** Resolution of encoders *)

Lemma wf_rtype_Ptr (t : rtype) :
  wf_rtype t = true -> Type_Kind t = Ptr -> exists n elem, t = TPtr n elem.
Proof.
  destruct t as [n k|n elem|n elem]; simpl; intros Hwf Hk; try discriminate; [|by eauto].
  subst k. discriminate.
Qed.

(** Lines 223-252 as they are written, for a type a Go program can have:
    the registry first, then the switch on the kind, the pointer case
    resolving the element type. *)
Lemma typeEncoder_unfold (t : rtype) (reg : gmap rtype encoderFunc) :
  wf_rtype t = true ->
  typeEncoder t reg =
    match reg !! t with
    | Some f => Some f
    | None =>
        match Type_Kind t with
        | Bool => Some encodeBool
        | Int | Int8 | Int16 | Int32 | Int64 => Some encodeInt
        | Uint | Uint8 | Uint16 | Uint32 | Uint64 => Some encodeUint
        | Float32 => Some encodeFloat32
        | Float64 => Some encodeFloat64
        | Ptr => Some (ptrEncoder (typeEncoder (Type_Elem t) reg))
        | String => Some encodeString
        | _ => None
        end
    end.
Proof.
  intros Hwf. destruct t as [n k|n elem|n elem]; simpl;
    destruct (reg !! _); try done.
  by destruct k.
Qed.


Lemma typeEncoder_pointer (reg : gmap rtype encoderFunc) (n : string) (elem : rtype) :
  reg !! TPtr n elem = None ->
  typeEncoder (TPtr n elem) reg = Some (ptrEncoder (typeEncoder elem reg)).
Proof. intros H. simpl. by rewrite H. Qed.



(** C6, as amended: for a pointer type that has no encoder registered for
    itself and whose pointee type resolves an encoder [f], the resolved
    encoder returns "null" on a nil pointer and, on a pointer that is not
    nil, what [f] returns on the pointee. *)
Theorem pointer_encoder_null_or_pointee
    (reg : gmap rtype encoderFunc) (n : string) (elem : rtype) (f : encoderFunc) :
  reg !! TPtr n elem = None ->
  typeEncoder elem reg = Some f ->
  exists g,
    typeEncoder (TPtr n elem) reg = Some g
    /\ g (VPtr n elem None) = Ok "null"
    /\ forall x, g (VPtr n elem (Some x)) = f x.
Proof.
  intros Hreg Hf. exists (ptrEncoder (Some f)). split; [|done].
  by rewrite typeEncoder_pointer, Hf.
Qed.

(** C8: a top-level value that, after one dereference when it is a
    pointer, is not a struct: [encode] returns the structural error, a
    single error and not a [MultiError], and the values it was given,
    unchanged; so do [Encode], whose map is left as it was, and
    [EncodeValues]. *)
Theorem encode_not_struct
    (e : Encoder) (v : value) (uv : UrlValues) (dst : gmap string (list string)) :
  Value_Kind (if bool_decide (Value_Kind v = Ptr) then Elem v else v) ≠ Struct ->
  Encoder.encode e v uv
    = Ok (uv, Some (errorString "schema: interface must be a struct"))
  /\ Encoder.Encode e v dst
    = Ok (dst, Some (errorString "schema: interface must be a struct"))
  /\ Encoder.EncodeValues e v
    = Ok (None, Some (errorString "schema: interface must be a struct")).
Proof.
  intros Hk.
  assert (Hall : forall uv, Encoder.encode e v uv
    = Ok (uv, Some (errorString "schema: interface must be a struct"))).
  { intros uv'. rewrite encode_unfold. simpl. by rewrite bool_decide_true. }
  split; [apply Hall|].
  unfold Encoder.Encode, Encoder.EncodeValues. by rewrite !Hall.
Qed.

(** ** The loop over the fields *)

Section FieldLoop.
Variable e : Encoder.
Variable encode : value -> UrlValues -> outcome (UrlValues * option error).

Lemma encodeLoop_panic (fs : list (StructField * value)) :
  fold_left
    (fun st f =>
       st <-! st ;;
       let '(field, fv) := f in
       Encoder.encodeField e encode field fv st.1 st.2)
    fs Panic = Panic.
Proof. induction fs as [|[field fv] fs IH]; [done|apply IH]. Qed.

Lemma encodeLoop_nil (uv : UrlValues) (errors : gmap string error) :
  Encoder.encodeLoop e encode [] uv errors = Ok (uv, errors).
Proof. done. Qed.

Lemma encodeLoop_cons (field : StructField) (fv : value)
    (fs : list (StructField * value)) (uv : UrlValues) (errors : gmap string error) :
  Encoder.encodeLoop e encode ((field, fv) :: fs) uv errors =
    st <-! Encoder.encodeField e encode field fv uv errors ;;
    Encoder.encodeLoop e encode fs st.1 st.2.
Proof.
  unfold Encoder.encodeLoop. simpl.
  destruct (Encoder.encodeField e encode field fv uv errors) as [[uv' errors']|];
    simpl; [done|apply encodeLoop_panic].
Qed.

Lemma encodeLoop_app (fs1 fs2 : list (StructField * value))
    (uv : UrlValues) (errors : gmap string error) :
  Encoder.encodeLoop e encode (fs1 ++ fs2) uv errors =
    st <-! Encoder.encodeLoop e encode fs1 uv errors ;;
    Encoder.encodeLoop e encode fs2 st.1 st.2.
Proof.
  unfold Encoder.encodeLoop. rewrite fold_left_app.
  destruct (fold_left _ fs1 _) as [[uv' errors']|]; simpl;
    [done|apply encodeLoop_panic].
Qed.

(** A field whose type resolves no encoder is no pointer. *)
Lemma no_encoder_not_pointer (fv : value) :
  typeEncoder (Value_Type fv) (regenc e) = None ->
  isValidStructPointer fv = false.
Proof.
  intros Hnone. unfold isValidStructPointer.
  destruct (decide (Type_Kind (Value_Type fv) = Ptr)) as [Hk|Hk].
  - destruct (Value_Kind_Ptr fv Hk) as (n & elem & p & ->).
    simpl in Hnone. by destruct (regenc e !! TPtr n elem).
  - by rewrite bool_decide_false.
Qed.

(** What the loop body does with a field without encoder. *)
Lemma encodeField_no_encoder
    (field : StructField) (fv : value)
    (uv : UrlValues) (errors : gmap string error) :
  (fieldAlias field (tag (Encoder_cache e))).1 ≠ "-" ->
  typeEncoder (Value_Type fv) (regenc e) = None ->
  Type_Kind (Value_Type fv) ≠ Struct ->
  (Type_Kind (Value_Type fv) = Slice ->
   typeEncoder (Type_Elem (Value_Type fv)) (regenc e) = None) ->
  Encoder.encodeField e encode field fv uv errors
    = Ok (uv, <[Type_String (Value_Type fv) := encoderNotFound fv]> errors).
Proof.
  intros Hname Hnone Hstruct Hslice.
  unfold Encoder.encodeField.
  destruct (fieldAlias field (tag (Encoder_cache e))) as [name opts].
  simpl in Hname. apply String.eqb_neq in Hname. rewrite Hname.
  rewrite (no_encoder_not_pointer fv Hnone). simpl.
  rewrite Hnone, (bool_decide_false _ Hstruct).
  case_bool_decide as Hk; [by rewrite (Hslice Hk)|done].
Qed.


(** C9, as amended: a field that is not left out by the alias "-", of a
    pointer-to-struct type without a registered encoder and without
    omitempty, holding nil: the pair of its alias and "null" is appended
    to the values, whatever the pointee type resolves, and the nested
    encoder is not called. *)
Theorem nil_struct_pointer_emits_null
    (field : StructField) (n : string) (elem : rtype) (name : string)
    (opts : tagOptions) (uv : UrlValues) (errors : gmap string error) :
  fieldAlias field (tag (Encoder_cache e)) = (name, opts) ->
  name ≠ "-" ->
  Type_Kind elem = Struct ->
  regenc e !! TPtr n elem = None ->
  Contains opts "omitempty" = false ->
  Encoder.encodeField e encode field (VPtr n elem None) uv errors
    = Ok (Encoder.appendValue uv name "null", errors)
  /\ values (Encoder.appendValue uv name "null") !! name
     = Some ((values uv !!! name) ++ ["null"]).
Proof.
  intros Halias Hname _ Hreg Homit.
  split; [|apply lookup_insert_eq].
  unfold Encoder.encodeField. rewrite Halias.
  apply String.eqb_neq in Hname. rewrite Hname. simpl.
  by rewrite Hreg, Homit.
Qed.

End FieldLoop.

(** ** Slice fields *)

Lemma filter_Forall_id {A : Type} (P : A -> Prop) `{!forall x, Decision (P x)}
    (l : list A) :
  Forall P l -> filter P l = l.
Proof.
  induction 1 as [|x l Hx Hl IH]; [done|].
  by rewrite filter_cons_True, IH.
Qed.

Lemma removeFirst_filter (key : string) (ks : list string) :
  NoDup ks -> UrlValues.removeFirst key ks = filter (fun k => k ≠ key) ks.
Proof.
  induction 1 as [|x ks Hx Hnd IH]; [done|]. simpl.
  destruct (String.eqb_spec x key) as [->|Hne].
  - rewrite filter_cons_False by (intros Hk; by apply Hk).
    symmetry. apply filter_Forall_id.
    apply Forall_forall. intros k Hk ->. done.
  - rewrite filter_cons_True by done. by rewrite IH.
Qed.

Lemma appendElems_ok (f : encoderFunc) (name : string) (elems : list value)
    (strs cur : list string) (uv : UrlValues) :
  Forall2 (fun x s => f x = Ok s) elems strs ->
  values uv !! name = Some cur ->
  Encoder.appendElems f name elems uv
    = Ok {| keys := keys uv; values := <[name := cur ++ strs]> (values uv) |}.
Proof.
  intros Hall. revert cur uv.
  induction Hall as [|x s elems strs Hx Hall IH]; intros cur uv Hcur.
  - unfold Encoder.appendElems. simpl. rewrite app_nil_r, insert_id by done.
    by destruct uv.
  - unfold Encoder.appendElems in *. simpl. rewrite Hx. simpl.
    rewrite (lookup_total_correct _ _ _ Hcur).
    rewrite (IH (cur ++ [s])) by (simpl; apply lookup_insert_eq).
    simpl. by rewrite insert_insert_eq, <- app_assoc.
Qed.

Section SliceField.
Variable e : Encoder.
Variable encode : value -> UrlValues -> outcome (UrlValues * option error).

(** What the loop body does with a slice field it encodes element by
    element. *)
Lemma encodeField_slice
    (field : StructField) (n : string) (elem : rtype) (s : option (list value))
    (f : encoderFunc) (strs : list string) (name : string) (opts : tagOptions)
    (uv : UrlValues) (errors : gmap string error) :
  fieldAlias field (tag (Encoder_cache e)) = (name, opts) ->
  name ≠ "-" ->
  regenc e !! TSlice n elem = None ->
  typeEncoder elem (regenc e) = Some f ->
  Forall2 (fun x str => f x = Ok str) (default [] s) strs ->
  bool_decide (length (default [] s) = 0) && Contains opts "omitempty" = false ->
  Encoder.encodeField e encode field (VSlice n elem s) uv errors
    = Ok ({| keys := keys (Encoder.resetKey uv name);
             values := <[name := strs]> (values uv) |}, errors).
Proof.
  intros Halias Hname Hreg Hf Hall Homit.
  assert (Hreset : values (Encoder.resetKey uv name) !! name = Some []).
  { unfold Encoder.resetKey. simpl. apply lookup_insert_eq. }
  assert (Hvalues : <[name := [] ++ strs]> (values (Encoder.resetKey uv name))
                    = <[name := strs]> (values uv)).
  { unfold Encoder.resetKey.
    destruct (values uv !! name); simpl; by rewrite insert_insert_eq. }
  assert (Hel : Elements (VSlice n elem s) = Ok (default [] s)) by by destruct s.
  assert (Hnone : typeEncoder (TSlice n elem) (regenc e) = None).
  { simpl. by rewrite Hreg. }
  unfold Encoder.encodeField. rewrite Halias.
  apply String.eqb_neq in Hname. rewrite Hname.
  change (isValidStructPointer (VSlice n elem s)) with false.
  cbn [andb Value_Type Type_Kind Type_Elem].
  rewrite Hnone, bool_decide_false, bool_decide_true, Hf, Hel by done.
  cbn [obind]. rewrite Homit.
  rewrite (appendElems_ok f name _ strs [] _ Hall Hreset).
  cbn [obind keys values]. by rewrite Hvalues.
Qed.

(** C3, as amended: a slice field without a registered encoder for its
    slice type, encoded element by element into values that list no key
    twice and in which its key has entries: the values of the key are
    replaced by the encoded elements, in the order of the elements, the
    key is moved to the end of the keys, where it stands once, and the
    other keys keep their values and their order. *)
Theorem slice_field_replaces_and_moves
    (field : StructField) (n : string) (elem : rtype) (s : option (list value))
    (f : encoderFunc) (strs : list string) (name : string) (opts : tagOptions)
    (uv : UrlValues) (errors : gmap string error) :
  fieldAlias field (tag (Encoder_cache e)) = (name, opts) ->
  name ≠ "-" ->
  regenc e !! TSlice n elem = None ->
  typeEncoder elem (regenc e) = Some f ->
  Forall2 (fun x str => f x = Ok str) (default [] s) strs ->
  bool_decide (length (default [] s) = 0) && Contains opts "omitempty" = false ->
  is_Some (values uv !! name) ->
  NoDup (keys uv) ->
  exists uv',
    Encoder.encodeField e encode field (VSlice n elem s) uv errors = Ok (uv', errors)
    /\ values uv' = <[name := strs]> (values uv)
    /\ keys uv' = filter (fun k => k ≠ name) (keys uv) ++ [name]
    /\ NoDup (keys uv').
Proof.
  intros Halias Hname Hreg Hf Hall Homit [old Hold] Hnd.
  eexists. split; [by eapply encodeField_slice|]. cbn [keys values].
  split; [done|].
  assert (Hkeys : keys (Encoder.resetKey uv name)
                  = filter (fun k => k ≠ name) (keys uv) ++ [name]).
  { unfold Encoder.resetKey. rewrite Hold. simpl.
    by rewrite removeFirst_filter. }
  split; [done|]. rewrite Hkeys.
  apply NoDup_app. split; [by apply NoDup_filter|].
  split; [|apply NoDup_singleton].
  intros k Hk Hk'. apply list_elem_of_filter in Hk as [Hk _].
  apply list_elem_of_singleton in Hk'. done.
Qed.

End SliceField.

(** ** The omitempty option *)

Lemma isZero_valid_struct_pointer (fv : value) :
  isValidStructPointer fv = true -> isZero fv = Ok false.
Proof.
  unfold isValidStructPointer. intros H.
  apply andb_prop in H as [H _]. apply andb_prop in H as [Hk Hv].
  apply bool_decide_eq_true in Hk.
  destruct (Value_Kind_Ptr fv Hk) as (n & elem & p & ->).
  by destruct p.
Qed.

Section Omitempty.
Variable e : Encoder.
Variable encode : value -> UrlValues -> outcome (UrlValues * option error).

(** C5, as amended: [field] carries omitempty, [field'] is the same field
    without it.  When the value is zero for [isZero] (which asks a struct
    type for its own [IsZero] when it has one), the field is no struct
    left without an encoder, and the encoder resolved for it returns,
    the values are left as they were.  When the value is not zero, the
    field is encoded as it is without the option. *)
Theorem omitempty_skips_zero_only
    (field field' : StructField) (fv : value) (name : string)
    (opts opts' : tagOptions) (uv : UrlValues) (errors : gmap string error) :
  fieldAlias field (tag (Encoder_cache e)) = (name, opts) ->
  Contains opts "omitempty" = true ->
  fieldAlias field' (tag (Encoder_cache e)) = (name, opts') ->
  Contains opts' "omitempty" = false ->
  (isZero fv = Ok true ->
   (typeEncoder (Value_Type fv) (regenc e) = None ->
    Type_Kind (Value_Type fv) ≠ Struct) ->
   (forall f, typeEncoder (Value_Type fv) (regenc e) = Some f -> returns (f fv)) ->
   exists errors',
     Encoder.encodeField e encode field fv uv errors = Ok (uv, errors'))
  /\ (isZero fv = Ok false ->
      Encoder.encodeField e encode field fv uv errors
      = Encoder.encodeField e encode field' fv uv errors)
  /\ (forall n b fs, isZero (VStruct n (Some b) fs) = Ok b).
Proof.
  intros Halias Homit Halias' Homit'. split; [|split; [|done]].
  - intros Hzero Hstruct Hret.
    unfold Encoder.encodeField. rewrite Halias.
    destruct (String.eqb name "-"); [by eauto|].
    destruct (isValidStructPointer fv) eqn:Hptr.
    { apply isZero_valid_struct_pointer in Hptr. congruence. }
    cbn [andb].
    destruct (typeEncoder (Value_Type fv) (regenc e)) as [f|] eqn:Hf.
    + specialize (Hret f eq_refl). destruct (f fv) as [s|]; [|done].
      cbn [obind]. rewrite Homit, Hzero. cbn [obind]. eauto.
    + rewrite bool_decide_false by auto.
      case_bool_decide as Hk; [|by eauto].
      destruct (typeEncoder (Type_Elem (Value_Type fv)) (regenc e)); [|by eauto].
      destruct (Value_Kind_Slice fv Hk) as (n & elem & s & ->).
      destruct s as [l|]; cbn [Elements obind]; simpl in Hzero.
      * inversion Hzero as [Hl]. rewrite Hl, Homit. cbn [andb]. eauto.
      * cbn [length]. rewrite Homit. eauto.
  - intros Hzero.
    unfold Encoder.encodeField. rewrite Halias, Halias'.
    destruct (String.eqb name "-"); [done|].
    destruct (isValidStructPointer fv && _); [done|].
    destruct (typeEncoder (Value_Type fv) (regenc e)) as [f|] eqn:Hf.
    + destruct (f fv) as [s|]; [|done].
      cbn [obind]. by rewrite Homit, Homit', Hzero.
    + case_bool_decide as Hs; [done|].
      case_bool_decide as Hk; [|done].
      destruct (typeEncoder (Type_Elem (Value_Type fv)) (regenc e)); [|done].
      destruct (Value_Kind_Slice fv Hk) as (n & elem & s & ->).
      destruct s as [l|]; cbn [Elements obind]; simpl in Hzero; [|done].
      inversion Hzero as [Hl]. rewrite Hl, Homit, Homit'. done.
Qed.

End Omitempty.

(** ** Failing fields and the fields beside them *)



Section PartialFailure.
Variable e : Encoder.
Variable encode : value -> UrlValues -> outcome (UrlValues * option error).

Lemma unencodable_spec (field : StructField) (fv : value) :
  unencodable e (field, fv) = true ->
  (fieldAlias field (tag (Encoder_cache e))).1 ≠ "-"
  /\ typeEncoder (Value_Type fv) (regenc e) = None
  /\ Type_Kind (Value_Type fv) ≠ Struct
  /\ (Type_Kind (Value_Type fv) = Slice ->
      typeEncoder (Type_Elem (Value_Type fv)) (regenc e) = None).
Proof.
  unfold unencodable. cbn [fst snd]. intros H.
  apply andb_prop in H as [H Hslice]. apply andb_prop in H as [H Hstruct].
  apply andb_prop in H as [Hname Hnone].
  apply negb_true_iff in Hname, Hnone, Hstruct.
  apply String.eqb_neq in Hname.
  apply bool_decide_eq_false in Hnone, Hstruct.
  rewrite <- eq_None_not_Some in Hnone.
  repeat split; try done.
  intros Hk. apply orb_prop in Hslice as [Hs|Hs]; apply negb_true_iff in Hs;
    apply bool_decide_eq_false in Hs; [done|].
  by rewrite <- eq_None_not_Some in Hs.
Qed.

(** The values a field leaves do not depend on the errors before it,
    and the errors it leaves are the errors before it and at most one
    entry more. *)
Lemma encodeField_errors (field : StructField) (fv : value)
    (uv uv' : UrlValues) (errors errors' : gmap string error) :
  Encoder.encodeField e encode field fv uv errors = Ok (uv', errors') ->
  exists w,
    errors' = writeError w errors
    /\ forall errors2,
         Encoder.encodeField e encode field fv uv errors2
         = Ok (uv', writeError w errors2).
Proof.
  unfold Encoder.encodeField.
  destruct (fieldAlias field (tag (Encoder_cache e))) as [name opts].
  destruct (String.eqb name "-").
  { intros [= <- <-]. by exists None. }
  destruct (isValidStructPointer fv && _).
  { destruct fv as [| | | | | | | | | | n elem [x|] |]; try done.
    destruct (encode x uv) as [[uv1 [err|]]|]; [| |done]; intros [= <- <-].
    - by exists (Some (Type_String (Value_Type x), err)).
    - by exists None. }
  destruct (typeEncoder (Value_Type fv) (regenc e)) as [f|].
  { destruct (f fv) as [s|]; [|done]. cbn [obind].
    destruct (if Contains opts "omitempty" then isZero fv else Ok false)
      as [[|]|]; [| |done]; intros [= <- <-]; by exists None. }
  case_bool_decide.
  { destruct (encode fv uv) as [[uv1 [err|]]|]; [| |done]; intros [= <- <-].
    - by exists (Some (Type_String (Value_Type fv), err)).
    - by exists None. }
  destruct (if bool_decide (Type_Kind (Value_Type fv) = Slice) then _ else _) as [f|].
  - destruct (Elements fv) as [elems|]; [|done]. cbn [obind].
    destruct (bool_decide (length elems = 0) && Contains opts "omitempty").
    { intros [= <- <-]. by exists None. }
    destruct (Encoder.appendElems f name elems (Encoder.resetKey uv name));
      [|done].
    intros [= <- <-]. by exists None.
  - intros [= <- <-].
    by exists (Some (Type_String (Value_Type fv), encoderNotFound fv)).
Qed.


End PartialFailure.


(** ** Rendering *)

Section Rendering.
Variable QueryEscape : string -> string.

Lemma renderPairs_app (ps qs : list (string * string)) (buf : string) :
  renderPairs QueryEscape (ps ++ qs) buf = renderPairs QueryEscape qs (renderPairs QueryEscape ps buf).
Proof. apply fold_left_app. Qed.

Lemma renderPairs_key (k : string) (vs : list string) (buf : string) :
  fold_left (fun buf x => UrlValues.writePair QueryEscape buf (QueryEscape k) x) vs buf
  = renderPairs QueryEscape ((fun x => (k, x)) <$> vs) buf.
Proof. revert buf. induction vs as [|x vs IH]; intros buf; [done|apply IH]. Qed.

Lemma pairsOf_empty (ks : list string) :
  (k ← ks; (fun x => (k, x)) <$> ((∅ : gmap string (list string)) !!! k)) = [].
Proof.
  induction ks as [|k ks IH]; [done|].
  rewrite bind_cons, IH, lookup_total_empty. done.
Qed.

Lemma renderPairs_keys (vals : gmap string (list string)) (ks : list string)
    (buf : string) :
  fold_left
    (fun buf k =>
       let vs := vals !!! k in
       let keyEscaped := QueryEscape k in
       fold_left (fun buf x => UrlValues.writePair QueryEscape buf keyEscaped x) vs buf)
    ks buf
  = renderPairs QueryEscape (k ← ks; (fun x => (k, x)) <$> (vals !!! k)) buf.
Proof.
  revert buf. induction ks as [|k ks IH]; intros buf; [done|].
  rewrite bind_cons, renderPairs_app. cbn [fold_left].
  rewrite renderPairs_key. apply IH.
Qed.

(** [UrlValues.Encode] writes the pairs of [pairsOf]. *)
Lemma Encode_pairsOf (uv : UrlValues) :
  UrlValues.Encode QueryEscape uv = renderPairs QueryEscape (pairsOf uv) "".
Proof.
  unfold UrlValues.Encode, pairsOf. case_bool_decide as Hsize.
  - apply map_size_empty_iff in Hsize. rewrite Hsize, pairsOf_empty. done.
  - apply renderPairs_keys.
Qed.

Lemma renderPairs_list (ps : ListValues.UrlValues) (buf : string) :
  fold_left
    (fun buf p =>
       let keyEscaped := QueryEscape (ListValues.Key p) in
       let buf := if bool_decide (0 < String.length buf) then buf +:+ "&" else buf in
       buf +:+ keyEscaped +:+ "=" +:+ QueryEscape (ListValues.Value p))
    ps buf
  = renderPairs QueryEscape ((fun p => (ListValues.Key p, ListValues.Value p)) <$> ps) buf.
Proof. revert buf. induction ps as [|p ps IH]; intros buf; [done|apply IH]. Qed.

(** The list-based [Encode] writes its pairs in their order. *)
Lemma ListValues_Encode_pairs (ps : ListValues.UrlValues) :
  ListValues.Encode QueryEscape ps
  = renderPairs QueryEscape ((fun p => (ListValues.Key p, ListValues.Value p)) <$> ps) "".
Proof.
  unfold ListValues.Encode. case_bool_decide as Hlen.
  - by destruct ps.
  - apply renderPairs_list.
Qed.

End Rendering.

(** ** The list of pairs and the ordered values that hold it *)

Lemma elem_of_firstOccurrences (k : string) (ks : list string) :
  k ∈ firstOccurrences ks <-> k ∈ ks.
Proof.
  induction ks as [|x ks IH]; [done|]. simpl.
  rewrite !elem_of_cons, list_elem_of_filter, IH.
  destruct (decide (k = x)); naive_solver.
Qed.

Lemma NoDup_firstOccurrences (ks : list string) : NoDup (firstOccurrences ks).
Proof.
  induction ks as [|x ks IH]; simpl; [constructor|].
  apply NoDup_cons. split; [|by apply NoDup_filter].
  rewrite list_elem_of_filter. naive_solver.
Qed.

Lemma valuesOf_cons (p : ListValues.UrlValue) (ps : ListValues.UrlValues) (k : string) :
  valuesOf (p :: ps) k
  = if decide (ListValues.Key p = k) then ListValues.Value p :: valuesOf ps k
    else valuesOf ps k.
Proof. unfold valuesOf. rewrite filter_cons. by case_decide. Qed.

Lemma valuesOf_absent (ps : ListValues.UrlValues) (k : string) :
  k ∉ ListValues.Key <$> ps -> valuesOf ps k = [].
Proof.
  induction ps as [|p ps IH]; [done|].
  rewrite fmap_cons, not_elem_of_cons, valuesOf_cons. intros [Hk Hps].
  rewrite decide_False by done. by apply IH.
Qed.

Lemma lookup_list_to_map_fun {A : Type} (g : string -> A) (ks : list string) (k : string) :
  (list_to_map ((fun k => (k, g k)) <$> ks) : gmap string A) !! k
  = if decide (k ∈ ks) then Some (g k) else None.
Proof.
  induction ks as [|x ks IH]; [done|].
  rewrite fmap_cons. cbn [list_to_map foldr uncurry fst snd].
  destruct (decide (x = k)) as [->|Hne].
  - rewrite lookup_insert_eq, decide_True by apply list_elem_of_here. done.
  - rewrite lookup_insert_ne, IH by done.
    destruct (decide (k ∈ ks)) as [Hin|Hin].
    + by rewrite decide_True by by apply list_elem_of_further.
    + rewrite decide_False; [done|]. rewrite not_elem_of_cons. naive_solver.
Qed.

Lemma lookup_orderedOf (ps : ListValues.UrlValues) (k : string) :
  values (orderedOf ps) !! k
  = if decide (k ∈ ListValues.Key <$> ps) then Some (valuesOf ps k) else None.
Proof.
  unfold orderedOf. cbn [values]. rewrite lookup_list_to_map_fun.
  destruct (decide (k ∈ ListValues.Key <$> ps)) as [Hin|Hin].
  - by rewrite decide_True by by apply elem_of_firstOccurrences.
  - by rewrite decide_False by by rewrite elem_of_firstOccurrences.
Qed.

Lemma lookup_total_orderedOf (ps : ListValues.UrlValues) (k : string) :
  values (orderedOf ps) !!! k = valuesOf ps k.
Proof.
  rewrite lookup_total_alt, lookup_orderedOf.
  case_decide as Hin; [done|]. by rewrite valuesOf_absent.
Qed.

Lemma lookup_Values_from (ps : ListValues.UrlValues) (m : gmap string (list string))
    (k : string) :
  fold_left
    (fun m p => <[ListValues.Key p := (m !!! ListValues.Key p) ++ [ListValues.Value p]]> m)
    ps m !! k
  = if decide (k ∈ ListValues.Key <$> ps) then Some ((m !!! k) ++ valuesOf ps k)
    else m !! k.
Proof.
  revert m. induction ps as [|p ps IH]; intros m; [done|].
  cbn [fold_left]. rewrite IH, fmap_cons, valuesOf_cons.
  destruct (decide (ListValues.Key p = k)) as [<-|Hne].
  - rewrite (decide_True (P := _ ∈ _ :: _)) by apply list_elem_of_here.
    rewrite lookup_total_insert_eq, lookup_insert_eq, <- app_assoc.
    case_decide as Hin; [done|]. by rewrite valuesOf_absent.
  - rewrite lookup_total_insert_ne, lookup_insert_ne by done.
    apply decide_ext. rewrite elem_of_cons. naive_solver.
Qed.

Lemma lookup_Values (ps : ListValues.UrlValues) (k : string) :
  ListValues.Values ps !! k
  = if decide (k ∈ ListValues.Key <$> ps) then Some (valuesOf ps k) else None.
Proof.
  unfold ListValues.Values. rewrite lookup_Values_from, lookup_total_empty.
  by rewrite lookup_empty.
Qed.

(** The two [Values] views agree, contiguous keys or not. *)
Lemma Values_orderedOf (ps : ListValues.UrlValues) :
  ListValues.Values ps = UrlValues.Values (orderedOf ps).
Proof.
  apply map_eq. intros k. unfold UrlValues.Values.
  by rewrite lookup_Values, lookup_orderedOf.
Qed.

Lemma contiguous_cons (p : ListValues.UrlValue) (ps : ListValues.UrlValues) :
  contiguous (p :: ps) ->
  contiguous ps
  /\ (ListValues.Key p ∈ ListValues.Key <$> ps ->
      exists q ps', ps = q :: ps' /\ ListValues.Key q = ListValues.Key p).
Proof.
  intros Hc. split.
  - intros l1 p' l2 q l3 -> Hk. by apply (Hc (p :: l1) p' l2 q l3).
  - intros Hin. apply list_elem_of_fmap in Hin as (q & Hq & Hin).
    apply list_elem_of_split in Hin as (l2 & l3 & ->).
    specialize (Hc [] p l2 q l3 eq_refl Hq).
    destruct l2 as [|r l2]; [by eauto|].
    apply Forall_cons in Hc as [Hr _]. eauto.
Qed.

Lemma bind_ext_Forall {A B : Type} (f g : A -> list B) (l : list A) :
  Forall (fun x => f x = g x) l -> l ≫= f = l ≫= g.
Proof.
  induction 1 as [|x l Hx Hl IH]; [done|]. by rewrite !bind_cons, Hx, IH.
Qed.

(** With contiguous keys, the ordered values hold the pairs in the order
    of the list. *)
Lemma pairsOf_orderedOf (ps : ListValues.UrlValues) :
  contiguous ps ->
  pairsOf (orderedOf ps)
  = (fun p => (ListValues.Key p, ListValues.Value p)) <$> ps.
Proof.
  intros Hc. unfold pairsOf.
  rewrite (bind_ext_Forall _ (fun k => (fun x => (k, x)) <$> valuesOf ps k))
    by (apply Forall_forall; intros k _; by rewrite lookup_total_orderedOf).
  cbn [orderedOf keys].
  induction ps as [|p ps IH]; [done|].
  apply contiguous_cons in Hc as [Hc Hhead]. specialize (IH Hc).
  rewrite !fmap_cons. cbn [firstOccurrences]. rewrite bind_cons.
  rewrite valuesOf_cons, decide_True, fmap_cons by done.
  rewrite <- app_comm_cons. f_equal.
  rewrite <- IH.
  set (g := fun k => (fun x => (k, x)) <$> valuesOf ps k).
  rewrite (bind_ext_Forall _ g).
  2:{ apply Forall_forall. intros k Hk. apply list_elem_of_filter in Hk as [Hk _].
      rewrite valuesOf_cons, decide_False; [done|]. congruence. }
  change ((fun x => (ListValues.Key p, x)) <$> valuesOf ps (ListValues.Key p))
    with (g (ListValues.Key p)).
  destruct (decide (ListValues.Key p ∈ ListValues.Key <$> ps)) as [Hin|Hin].
  - destruct (Hhead Hin) as (q & ps' & -> & Hq).
    rewrite fmap_cons. cbn [firstOccurrences]. rewrite Hq.
    rewrite filter_cons_False by (intros Hne; by apply Hne).
    rewrite list_filter_filter, bind_cons. f_equal.
    rewrite (list_filter_iff _ (fun x => x ≠ ListValues.Key p)); [done|].
    naive_solver.
  - unfold g at 1. rewrite valuesOf_absent by done. cbn [fmap list_fmap app].
    f_equal. apply filter_Forall_id. apply Forall_forall.
    intros k Hk Heq. subst k. apply Hin. by apply elem_of_firstOccurrences.
Qed.

(** The ordered values that hold a list of pairs are the ones the
    encoder builds when it appends the pairs one after the other (lines
    172-175). *)
Lemma appendValue_values (ps : ListValues.UrlValues) (uv : UrlValues) :
  values (fold_left
            (fun uv p => Encoder.appendValue uv (ListValues.Key p) (ListValues.Value p))
            ps uv)
  = fold_left
      (fun m p => <[ListValues.Key p := (m !!! ListValues.Key p) ++ [ListValues.Value p]]> m)
      ps (values uv).
Proof. revert uv. induction ps as [|p ps IH]; intros uv; [done|apply IH]. Qed.

Lemma appendValue_keys (ps : ListValues.UrlValues) (uv : UrlValues) :
  keys (fold_left
          (fun uv p => Encoder.appendValue uv (ListValues.Key p) (ListValues.Value p))
          ps uv)
  = keys uv
    ++ filter (fun k => values uv !! k = None) (firstOccurrences (ListValues.Key <$> ps)).
Proof.
  revert uv. induction ps as [|p ps IH]; intros uv.
  { cbn [fold_left fmap list_fmap firstOccurrences]. by rewrite filter_nil, app_nil_r. }
  cbn [fold_left]. rewrite IH, fmap_cons. cbn [firstOccurrences].
  unfold Encoder.appendValue at 1 2. cbn [keys values].
  rewrite filter_cons, list_filter_filter.
  destruct (values uv !! ListValues.Key p) as [old|] eqn:Hold.
  - rewrite decide_False by done. f_equal.
    apply list_filter_iff. intros k. rewrite lookup_insert_None.
    split; [naive_solver|]. intros [Hk Hne]. split; [done|congruence].
  - rewrite decide_True, <- app_assoc by done. cbn [app]. do 2 f_equal.
    apply list_filter_iff. intros k. rewrite lookup_insert_None. naive_solver.
Qed.

Lemma orderedOf_appendValue (ps : ListValues.UrlValues) :
  fold_left
    (fun uv p => Encoder.appendValue uv (ListValues.Key p) (ListValues.Value p))
    ps {| keys := []; values := ∅ |}
  = orderedOf ps.
Proof.
  pose proof (appendValue_keys ps {| keys := []; values := ∅ |}) as Hkeys.
  pose proof (appendValue_values ps {| keys := []; values := ∅ |}) as Hvalues.
  destruct (fold_left _ ps _) as [ks vs]. cbn [keys values app] in *.
  subst ks vs. unfold orderedOf. f_equal.
  - apply filter_Forall_id, Forall_forall. intros k _. apply lookup_empty.
  - apply (Values_orderedOf ps).
Qed.

(** C10: for a list of pairs in which the pairs of one key are
    contiguous, the list-based UrlValues and the ordered UrlValues that
    hold the same pairs have the same [Values] and the same [Encode]. *)
Theorem list_and_ordered_values_agree
    (QueryEscape : string -> string) (ps : ListValues.UrlValues) :
  contiguous ps ->
  ListValues.Values ps = UrlValues.Values (orderedOf ps)
  /\ ListValues.Encode QueryEscape ps = UrlValues.Encode QueryEscape (orderedOf ps).
Proof.
  intros Hc. split; [apply Values_orderedOf|].
  by rewrite ListValues_Encode_pairs, Encode_pairsOf, pairsOf_orderedOf.
Qed.

(** ** Fields encoded under their own alias *)

Lemma encodeAll_Forall2 (f : encoderFunc) (elems : list value) (strs : list string) :
  encodeAll f elems = Some strs -> Forall2 (fun x s => f x = Ok s) elems strs.
Proof.
  revert strs. induction elems as [|x elems IH]; intros strs; simpl.
  - intros [= <-]. constructor.
  - destruct (f x) as [s|] eqn:Hx; [|done].
    destruct (encodeAll f elems) as [strs'|]; [|done].
    intros [= <-]. constructor; [done|by apply IH].
Qed.

Section DirectFields.
Variable e : Encoder.
Variable encode : value -> UrlValues -> outcome (UrlValues * option error).

Lemma encodeField_direct (field : StructField) (fv : value) (vs : list string)
    (uv : UrlValues) (errors : gmap string error) :
  directValues e fv = Some vs ->
  aliasOf e (field, fv) ≠ "-" ->
  optionsOf e (field, fv) = [] ->
  values uv !! aliasOf e (field, fv) = None ->
  Encoder.encodeField e encode field fv uv errors
  = Ok ({| keys := keys uv ++ [aliasOf e (field, fv)];
           values := <[aliasOf e (field, fv) := vs]> (values uv) |}, errors).
Proof.
  unfold aliasOf, optionsOf, directValues. cbn [fst snd].
  intros Hdirect Hname Hopts Hfresh.
  destruct (isValidStructPointer fv && _) eqn:Hptr; [done|].
  destruct (typeEncoder (Value_Type fv) (regenc e)) as [f|] eqn:Hf.
  - destruct (f fv) as [s|] eqn:Hs; [|done]. injection Hdirect as <-.
    unfold Encoder.encodeField.
    destruct (fieldAlias field (tag (Encoder_cache e))) as [name opts].
    cbn [fst snd] in *. subst opts.
    apply String.eqb_neq in Hname. rewrite Hname, Hptr, Hf, Hs.
    cbn [obind Contains existsb]. unfold Encoder.appendValue.
    by rewrite Hfresh, lookup_total_alt, Hfresh.
  - destruct fv as [| | | | | | | | | | |n elem s]; try done.
    destruct (typeEncoder elem (regenc e)) as [f|] eqn:Helem; [|done].
    apply encodeAll_Forall2 in Hdirect.
    assert (Hreg : regenc e !! TSlice n elem = None).
    { simpl in Hf. by destruct (regenc e !! TSlice n elem). }
    destruct (fieldAlias field (tag (Encoder_cache e))) as [name opts] eqn:Halias.
    cbn [fst snd] in *. subst opts.
    rewrite (encodeField_slice e encode field n elem s f vs name [])
      by (done || by rewrite andb_false_r).
    unfold Encoder.resetKey. by rewrite Hfresh.
Qed.

Lemma encodeLoop_direct (fs : list (StructField * value)) :
  forall (vss : list (list string)) (uv : UrlValues) (errors : gmap string error),
    Forall2 (fun f vs => directValues e f.2 = Some vs) fs vss ->
    Forall (fun f => optionsOf e f = []) fs ->
    NoDup (aliasOf e <$> fs) ->
    "-" ∉ aliasOf e <$> fs ->
    (forall k, k ∈ aliasOf e <$> fs -> values uv !! k = None) ->
    exists uv',
      Encoder.encodeLoop e encode fs uv errors = Ok (uv', errors)
      /\ keys uv' = keys uv ++ (aliasOf e <$> fs)
      /\ Forall2 (fun k vs => values uv' !! k = Some vs) (aliasOf e <$> fs) vss
      /\ (forall k, k ∉ aliasOf e <$> fs -> values uv' !! k = values uv !! k).
Proof.
  induction fs as [|[field fv] fs IH];
    intros vss uv errors Hdirect Hopts Hnd Hdash Hfresh.
  { apply Forall2_nil_inv_l in Hdirect as ->. exists uv.
    split; [done|]. split; [by rewrite app_nil_r|].
    split; [constructor|done]. }
  apply Forall2_cons_inv_l in Hdirect as (vs & vss' & Hd & Hdirect & ->).
  apply Forall_cons in Hopts as [Hopt Hopts].
  rewrite fmap_cons in Hnd, Hdash, Hfresh.
  apply NoDup_cons in Hnd as [Hnotin Hnd].
  apply not_elem_of_cons in Hdash as [Hname Hdash].
  rewrite encodeLoop_cons.
  rewrite (encodeField_direct field fv vs uv errors Hd)
    by (done || apply Hfresh, list_elem_of_here).
  cbn [obind fst snd].
  destruct (IH vss' {| keys := keys uv ++ [aliasOf e (field, fv)];
                       values := <[aliasOf e (field, fv) := vs]> (values uv) |}
              errors Hdirect Hopts Hnd Hdash)
    as (uv' & Hloop & Hkeys & Hvals & Hrest).
  { intros k Hk. cbn [values].
    rewrite lookup_insert_ne by (intros Heq; by subst k).
    by apply Hfresh, list_elem_of_further. }
  exists uv'. rewrite fmap_cons. split; [done|].
  split; [by rewrite Hkeys; cbn [keys]; rewrite <- app_assoc|].
  split.
  - constructor; [|done]. rewrite Hrest by done. apply lookup_insert_eq.
  - intros k Hk. apply not_elem_of_cons in Hk as [Hk1 Hk2].
    rewrite Hrest by done. by apply lookup_insert_ne.
Qed.

End DirectFields.

Lemma pairsOf_fieldPairs (uv : UrlValues) (vss : list (list string)) :
  Forall2 (fun k vs => values uv !! k = Some vs) (keys uv) vss ->
  pairsOf uv = fieldPairs (keys uv) vss.
Proof.
  unfold pairsOf, fieldPairs.
  induction 1 as [|k vs ks vss Hk Hall IH]; [done|].
  cbn [zip zip_with]. rewrite !bind_cons, IH. cbn [fst snd].
  by rewrite (lookup_total_correct _ _ _ Hk).
Qed.

(** C4, as amended: a struct whose fields carry no options, have distinct
    aliases none of which is "-", and are each encoded under their own
    alias to the strings [vss]: [EncodeValues] returns values whose keys
    are the aliases in the order of the fields, each with the strings of
    its field, and [Encode] writes their pairs field after field. *)
Theorem keys_in_declaration_order
    (QueryEscape : string -> string) (e : Encoder) (n : string) (iz : option bool)
    (fs : list (StructField * value)) (vss : list (list string)) :
  Forall (fun f => optionsOf e f = []) fs ->
  NoDup (aliasOf e <$> fs) ->
  "-" ∉ aliasOf e <$> fs ->
  Forall2 (fun f vs => directValues e f.2 = Some vs) fs vss ->
  exists uv,
    Encoder.EncodeValues e (VStruct n iz fs) = Ok (Some uv, None)
    /\ keys uv = aliasOf e <$> fs
    /\ Forall2 (fun k vs => values uv !! k = Some vs) (keys uv) vss
    /\ UrlValues.Encode QueryEscape uv
       = renderPairs QueryEscape (fieldPairs (aliasOf e <$> fs) vss) "".
Proof.
  intros Hopts Hnd Hdash Hdirect.
  destruct (encodeLoop_direct e (Encoder.encode e) fs vss
              {| keys := []; values := ∅ |} ∅ Hdirect Hopts Hnd Hdash)
    as (uv & Hloop & Hkeys & Hvals & _); [done|].
  cbn [keys app] in Hkeys. rewrite <- Hkeys in Hvals.
  exists uv. split.
  - unfold Encoder.EncodeValues. cbn [Encoder.encode].
    unfold Encoder.encodeFields. rewrite Hloop. cbn [obind fst snd].
    by rewrite map_size_empty.
  - split; [done|]. split; [done|].
    by rewrite Encode_pairsOf, (pairsOf_fieldPairs uv vss Hvals), Hkeys.
Qed.

(** ** Deciding that the keys of a list are contiguous *)

Lemma skipKey_run (k : string) (l2 : ListValues.UrlValues) (q : ListValues.UrlValue)
    (l3 : ListValues.UrlValues) :
  ListValues.Key q = k ->
  k ∉ ListValues.Key <$> skipKey k (l2 ++ q :: l3) ->
  Forall (fun r => ListValues.Key r = k) l2.
Proof.
  intros Hq. induction l2 as [|r l2 IH]; [constructor|].
  cbn [app skipKey]. case_decide as Hr.
  - intros Hk. constructor; [done|by apply IH].
  - intros Hk. exfalso. apply Hk.
    apply list_elem_of_fmap. exists q. split; [done|].
    apply list_elem_of_further, elem_of_app. right. apply list_elem_of_here.
Qed.

Lemma contiguousb_correct (ps : ListValues.UrlValues) :
  contiguousb ps = true -> contiguous ps.
Proof.
  induction ps as [|p ps IH]; intros Hb l1 p' l2 q l3 Heq Hk.
  { by destruct l1. }
  cbn [contiguousb] in Hb. apply andb_prop in Hb as [Hhead Htail].
  apply bool_decide_eq_true in Hhead.
  destruct l1 as [|x l1]; injection Heq as <- ->.
  - by apply (skipKey_run _ l2 q l3).
  - by apply (IH Htail l1 p' l2 q l3).
Qed.

(** ** The invariant of the ordered values *)

Lemma keys_ok_appendValue (uv : UrlValues) (name value : string) :
  keys_ok uv -> keys_ok (Encoder.appendValue uv name value).
Proof.
  intros [Hnd Hin]. unfold Encoder.appendValue, keys_ok. cbn [keys values].
  destruct (values uv !! name) as [old|] eqn:Hold.
  - split; [done|]. intros k Hk. rewrite lookup_insert. case_decide; [done|auto].
  - split.
    + apply NoDup_app. split; [done|]. split; [|apply NoDup_singleton].
      intros k Hk Hk'. apply list_elem_of_singleton in Hk' as ->.
      apply Hin in Hk as [? Hk]. congruence.
    + intros k Hk. rewrite lookup_insert. case_decide; [done|].
      apply elem_of_app in Hk as [Hk|Hk]; [auto|].
      by apply list_elem_of_singleton in Hk.
Qed.

Lemma elem_of_removeFirst (key k : string) (ks : list string) :
  k ∈ UrlValues.removeFirst key ks -> k ∈ ks.
Proof.
  induction ks as [|x ks IH]; [done|]. simpl.
  destruct (String.eqb x key).
  - apply list_elem_of_further.
  - rewrite !elem_of_cons. naive_solver.
Qed.

Lemma keys_ok_resetKey (uv : UrlValues) (name : string) :
  keys_ok uv -> keys_ok (Encoder.resetKey uv name).
Proof.
  intros [Hnd Hin]. unfold Encoder.resetKey, keys_ok.
  destruct (values uv !! name) as [old|] eqn:Hold; cbn [keys values UrlValues.removeKey].
  - rewrite removeFirst_filter by done. split.
    + apply NoDup_app. split; [by apply NoDup_filter|].
      split; [|apply NoDup_singleton].
      intros k Hk Hk'. apply list_elem_of_filter in Hk as [Hk _].
      by apply list_elem_of_singleton in Hk'.
    + intros k Hk. rewrite lookup_insert. case_decide; [done|].
      apply elem_of_app in Hk as [Hk|Hk].
      * apply list_elem_of_filter in Hk as [_ Hk]. auto.
      * by apply list_elem_of_singleton in Hk.
  - split.
    + apply NoDup_app. split; [done|]. split; [|apply NoDup_singleton].
      intros k Hk Hk'. apply list_elem_of_singleton in Hk' as ->.
      apply Hin in Hk as [? Hk]. congruence.
    + intros k Hk. rewrite lookup_insert. case_decide; [done|].
      apply elem_of_app in Hk as [Hk|Hk]; [auto|].
      by apply list_elem_of_singleton in Hk.
Qed.

Lemma keys_ok_appendElems (f : encoderFunc) (name : string) (elems : list value) :
  forall uv uv',
    keys_ok uv ->
    Encoder.appendElems f name elems uv = Ok uv' ->
    keys_ok uv'.
Proof.
  unfold Encoder.appendElems.
  induction elems as [|x elems IH]; intros uv uv' Hok; cbn [fold_left obind].
  { by intros [= <-]. }
  destruct (f x) as [s|]; cbn [obind].
  - apply IH. destruct Hok as [Hnd Hin]. split; [done|].
    intros k Hk. cbn [values]. rewrite lookup_insert. case_decide; [done|].
    by apply Hin.
  - intros Hpanic. exfalso. revert Hpanic. clear.
    induction elems as [|y elems IH]; [done|apply IH].
Qed.

Section Invariant.
Variable e : Encoder.

Lemma keys_ok_encodeField
    (encode : value -> UrlValues -> outcome (UrlValues * option error))
    (field : StructField) (fv : value)
    (uv uv' : UrlValues) (errors errors' : gmap string error) :
  keeps_keys_ok encode fv ->
  (forall n elem x, fv = VPtr n elem (Some x) -> keeps_keys_ok encode x) ->
  keys_ok uv ->
  Encoder.encodeField e encode field fv uv errors = Ok (uv', errors') ->
  keys_ok uv'.
Proof.
  intros Hself Hpointee Hok. unfold Encoder.encodeField.
  destruct (fieldAlias field (tag (Encoder_cache e))) as [name opts].
  destruct (String.eqb name "-"); [by intros [= <- _]|].
  destruct (isValidStructPointer fv && _).
  { destruct fv as [| | | | | | | | | | n elem [x|] |]; try done.
    destruct (encode x uv) as [[uv1 err]|] eqn:Hx; [|done].
    intros [= <- _]. by eapply (Hpointee n elem x). }
  destruct (typeEncoder (Value_Type fv) (regenc e)) as [f|].
  { destruct (f fv) as [s|]; [|done]. cbn [obind].
    destruct (if Contains opts "omitempty" then isZero fv else Ok false)
      as [[|]|]; [| |done]; intros [= <- _]; [done|].
    by apply keys_ok_appendValue. }
  case_bool_decide.
  { destruct (encode fv uv) as [[uv1 err]|] eqn:Hx; [|done].
    intros [= <- _]. by eapply Hself. }
  destruct (if bool_decide (Type_Kind (Value_Type fv) = Slice) then _ else _) as [f|];
    [|by intros [= <- _]].
  destruct (Elements fv) as [elems|]; [|done]. cbn [obind].
  destruct (bool_decide (length elems = 0) && Contains opts "omitempty");
    [by intros [= <- _]|].
  destruct (Encoder.appendElems f name elems (Encoder.resetKey uv name))
    as [uv1|] eqn:Happ; [|done].
  intros [= <- _].
  eapply keys_ok_appendElems; [|done]. by apply keys_ok_resetKey.
Qed.

Lemma keys_ok_encodeLoop
    (encode : value -> UrlValues -> outcome (UrlValues * option error))
    (fs : list (StructField * value)) :
  Forall (fun f => keeps_keys_ok encode f.2
                   /\ forall n elem x, f.2 = VPtr n elem (Some x) ->
                                       keeps_keys_ok encode x) fs ->
  forall uv uv' errors errors',
    keys_ok uv ->
    Encoder.encodeLoop e encode fs uv errors = Ok (uv', errors') ->
    keys_ok uv'.
Proof.
  induction 1 as [|[field fv] fs [Hself Hpointee] Hfs IH];
    intros uv uv' errors errors' Hok.
  { by intros [= <- _]. }
  rewrite encodeLoop_cons.
  destruct (Encoder.encodeField e encode field fv uv errors)
    as [[uv1 errors1]|] eqn:Hfield; [|done].
  cbn [obind fst snd]. apply IH.
  by eapply keys_ok_encodeField.
Qed.

Lemma keys_ok_encodeFields (fs : list (StructField * value)) :
  Forall (fun f => keeps_keys_ok (Encoder.encode e) f.2
                   /\ forall n elem x, f.2 = VPtr n elem (Some x) ->
                                       keeps_keys_ok (Encoder.encode e) x) fs ->
  forall uv uv' err,
    keys_ok uv ->
    Encoder.encodeFields e (Encoder.encode e) fs uv = Ok (uv', err) ->
    keys_ok uv'.
Proof.
  intros Hfs uv uv' err Hok. unfold Encoder.encodeFields.
  destruct (Encoder.encodeLoop e (Encoder.encode e) fs uv ∅)
    as [[uv1 errors1]|] eqn:Hloop; [|done].
  cbn [obind fst snd].
  assert (keys_ok uv1) by by eapply keys_ok_encodeLoop.
  by case_bool_decide; intros [= <- _].
Qed.

End Invariant.

(** The values [encode] leaves list no key twice, and every key they list
    has values, when the values it was given do: so it is for the values
    of [EncodeValues] and of [Encode], whose keys start empty. *)
Theorem encode_keeps_keys_ok (e : Encoder) (v : value) :
  keeps_keys_ok (Encoder.encode e) v.
Proof.
  cut (keeps_keys_ok (Encoder.encode e) v
       /\ forall n elem x, v = VPtr n elem (Some x) ->
                           keeps_keys_ok (Encoder.encode e) x); [by intros []|].
  induction v as [| | | | | | | | |n iz fs IH| |n elem x [IHx _]| |] using value_ind';
    try (split; [by intros uv uv' err Hok [= <- _]|done]).
  - split; [|done]. intros uv uv' err Hok. cbn [Encoder.encode].
    by apply keys_ok_encodeFields.
  - split; [|intros ? ? ? Heq; by injection Heq as _ _ <-].
    destruct x; try (by intros uv uv' err Hok [= <- _]).
    exact IHx.
Qed.

(** * Examples *)

Example sampleTagged_encodes :
  Encoder.EncodeValues Encoder.NewEncoder sampleTagged
  = Ok (Some {| keys := ["Name"; "Tags"];
                values := {[ "Name" := ["a"]; "Tags" := ["x"; "y"] ]} |}, None)
  /\ UrlValues.Encode queryEscape
       {| keys := ["Name"; "Tags"];
          values := {[ "Name" := ["a"]; "Tags" := ["x"; "y"] ]} |}
     = "Name=a&Tags=x&Tags=y".
Proof. split; by vm_compute. Qed.

(** The example of the specification: [{Count: 0 (omitempty)}]. *)
Example sampleCount_encodes :
  Encoder.EncodeValues Encoder.NewEncoder
    (VStruct "schema.Counted" None
       [(sampleField "Count" "Count" ["omitempty"], vInt 0)])
  = Ok (Some fresh, None)
  /\ UrlValues.Encode queryEscape fresh = "".
Proof. split; by vm_compute. Qed.

Example queryEscape_sample : queryEscape "a b&c=d/é~" = "a+b%26c%3Dd%2F%C3%A9~".
Proof. by vm_compute. Qed.

(** ** C1 *)


(** The same field holding a pointer that is not nil: the nil encoder of
    the pointee type is called, and the call panics. *)
Example pointer_to_map_panics :
  Encoder.Encode Encoder.NewEncoder
    (VStruct "schema.S" None
       [(sampleField "P" "p" [], VPtr "*map[string]int" tMap (Some vMap))]) ∅
  = Panic.
Proof. by vm_compute. Qed.


(** ** C2 *)



(** ** C3 *)

(** A slice field whose type has a registered encoder, encoded into
    values in which its key has an entry: the entry is kept, the string
    of the encoder is appended to it, and the key stays where it was. *)
Lemma registered_slice_field_appends :
  Encoder.encode withJoined
    (VStruct "schema.S" None [(sampleField "Tags" "tags" [], vStrings ["x"; "y"])])
    tagsBefore
  = Ok ({| keys := ["tags"; "name"];
           values := {[ "tags" := ["old"; "joined"]; "name" := ["n"] ]} |}, None).
Proof. by vm_compute. Qed.

Lemma slice_field_replaces_and_moves_witness :
  exists uv',
    Encoder.encodeField Encoder.NewEncoder (Encoder.encode Encoder.NewEncoder)
      (sampleField "Tags" "tags" []) (vStrings ["x"; "y"]) tagsBefore ∅
    = Ok (uv', ∅)
    /\ values uv' = <["tags" := ["x"; "y"]]> (values tagsBefore)
    /\ keys uv' = filter (fun k => k ≠ "tags") (keys tagsBefore) ++ ["tags"]
    /\ NoDup (keys uv').
Proof.
  apply (slice_field_replaces_and_moves Encoder.NewEncoder
           (Encoder.encode Encoder.NewEncoder) (sampleField "Tags" "tags" [])
           "[]string" tString (Some (vString <$> ["x"; "y"])) encodeString
           ["x"; "y"] "tags" [] tagsBefore ∅).
  - reflexivity.
  - discriminate.
  - reflexivity.
  - reflexivity.
  - repeat constructor.
  - reflexivity.
  - exists ["old"]. reflexivity.
  - vm_compute. repeat constructor; set_solver.
Defined.

(** ** C4 *)

(** The slice of the nested struct takes the key "a" over and moves it
    behind "b": the keys are not rendered in the order of the fields. *)
Lemma nested_slice_reorders_keys :
  aliasOf Encoder.NewEncoder <$> sampleOuter = ["a"; "b"; "in"]
  /\ optionsOf Encoder.NewEncoder <$> sampleOuter = [[]; []; []]
  /\ Encoder.EncodeValues Encoder.NewEncoder (VStruct "schema.Outer" None sampleOuter)
     = Ok (Some {| keys := ["b"; "a"];
                   values := {[ "a" := ["x"; "y"]; "b" := ["2"] ]} |}, None)
  /\ UrlValues.Encode queryEscape
       {| keys := ["b"; "a"]; values := {[ "a" := ["x"; "y"]; "b" := ["2"] ]} |}
     = "b=2&a=x&a=y".
Proof. repeat split; by vm_compute. Qed.

Lemma keys_in_declaration_order_witness :
  exists uv,
    Encoder.EncodeValues Encoder.NewEncoder (VStruct "schema.Tagged" None sampleFlat)
    = Ok (Some uv, None)
    /\ keys uv = aliasOf Encoder.NewEncoder <$> sampleFlat
    /\ Forall2 (fun k vs => values uv !! k = Some vs) (keys uv) [["a"]; ["x"; "y"]]
    /\ UrlValues.Encode queryEscape uv
       = renderPairs queryEscape
           (fieldPairs (aliasOf Encoder.NewEncoder <$> sampleFlat) [["a"]; ["x"; "y"]]) "".
Proof.
  apply (keys_in_declaration_order queryEscape Encoder.NewEncoder "schema.Tagged" None
           sampleFlat [["a"]; ["x"; "y"]]).
  - repeat constructor.
  - vm_compute. repeat constructor; set_solver.
  - vm_compute. set_solver.
  - repeat constructor.
Defined.

(** What the pairs of [sampleFlat] render to. *)
Example sampleFlat_renders :
  renderPairs queryEscape
    (fieldPairs (aliasOf Encoder.NewEncoder <$> sampleFlat) [["a"]; ["x"; "y"]]) ""
  = "Name=a&Tags=x&Tags=y".
Proof. by vm_compute. Qed.

(** ** C5 *)

(** A nested struct that is zero, in a field with omitempty: the option
    is not looked at, and the key of the nested field is emitted. *)
Lemma omitempty_ignored_on_nested_struct :
  isZero sampleInner = Ok true
  /\ Contains ["omitempty"] "omitempty" = true
  /\ Encoder.EncodeValues Encoder.NewEncoder
       (VStruct "schema.Outer" None [(sampleField "In" "in" ["omitempty"], sampleInner)])
     = Ok (Some {| keys := ["a"]; values := {[ "a" := ["0"] ]} |}, None).
Proof. repeat split; by vm_compute. Qed.

Lemma omitempty_skips_zero_only_witness :
  (exists errors',
     Encoder.encodeField Encoder.NewEncoder (Encoder.encode Encoder.NewEncoder)
       (sampleField "Count" "count" ["omitempty"]) (vInt 0) fresh ∅
     = Ok (fresh, errors'))
  /\ Encoder.encodeField Encoder.NewEncoder (Encoder.encode Encoder.NewEncoder)
       (sampleField "Count" "count" ["omitempty"]) (vInt 7) fresh ∅
     = Encoder.encodeField Encoder.NewEncoder (Encoder.encode Encoder.NewEncoder)
         (sampleField "Count" "count" []) (vInt 7) fresh ∅.
Proof.
  split.
  - apply (omitempty_skips_zero_only Encoder.NewEncoder
             (Encoder.encode Encoder.NewEncoder)
             (sampleField "Count" "count" ["omitempty"]) (sampleField "Count" "count" [])
             (vInt 0) "count" ["omitempty"] [] fresh ∅
             eq_refl eq_refl eq_refl eq_refl).
    + reflexivity.
    + intros H. discriminate H.
    + intros f H. injection H as <-. exact I.
  - apply (omitempty_skips_zero_only Encoder.NewEncoder
             (Encoder.encode Encoder.NewEncoder)
             (sampleField "Count" "count" ["omitempty"]) (sampleField "Count" "count" [])
             (vInt 7) "count" ["omitempty"] [] fresh ∅
             eq_refl eq_refl eq_refl eq_refl).
    reflexivity.
Defined.

(** ** C6 *)

(** The pointee type [int] resolves its built-in encoder, and an encoder
    is registered for [*int]: it is what resolution returns, and it does
    not return "null" on the nil pointer. *)
Lemma registered_pointer_encoder_on_nil :
  typeEncoder tInt withPointer = Some encodeInt
  /\ exists g,
       typeEncoder (TPtr "*int" tInt) withPointer = Some g
       /\ g (VPtr "*int" tInt None) = Ok "custom".
Proof. split; [by vm_compute|]. eexists. split; by vm_compute. Qed.

Lemma pointer_encoder_null_or_pointee_witness :
  exists g,
    typeEncoder (TPtr "*int" tInt) ∅ = Some g
    /\ g (VPtr "*int" tInt None) = Ok "null"
    /\ forall x, g (VPtr "*int" tInt (Some x)) = encodeInt x.
Proof.
  apply (pointer_encoder_null_or_pointee ∅ "*int" tInt encodeInt);
    reflexivity.
Defined.

(** ** C8 *)

Lemma encode_not_struct_witness :
  Encoder.encode Encoder.NewEncoder (VPtr "*int" tInt (Some (vInt 3))) fresh
    = Ok (fresh, Some (errorString "schema: interface must be a struct"))
  /\ Encoder.Encode Encoder.NewEncoder (VPtr "*int" tInt (Some (vInt 3))) ∅
    = Ok (∅, Some (errorString "schema: interface must be a struct"))
  /\ Encoder.EncodeValues Encoder.NewEncoder (VPtr "*int" tInt (Some (vInt 3)))
    = Ok (None, Some (errorString "schema: interface must be a struct")).
Proof.
  apply (encode_not_struct Encoder.NewEncoder (VPtr "*int" tInt (Some (vInt 3)))
           fresh ∅).
  vm_compute. discriminate.
Defined.

(** ** C9 *)

(** A nil pointer to a struct in a field whose alias is "-": the field
    is left out, and nothing is emitted. *)
Lemma nil_struct_pointer_left_out_by_dash :
  Encoder.EncodeValues Encoder.NewEncoder
    (VStruct "schema.S" None
       [(sampleField "P" "-" [], VPtr "*schema.Inner" tInner None)])
  = Ok (Some fresh, None).
Proof. by vm_compute. Qed.

Lemma nil_struct_pointer_emits_null_witness :
  Encoder.encodeField Encoder.NewEncoder (Encoder.encode Encoder.NewEncoder)
    (sampleField "P" "p" []) (VPtr "*schema.Inner" tInner None) fresh ∅
  = Ok (Encoder.appendValue fresh "p" "null", ∅)
  /\ values (Encoder.appendValue fresh "p" "null") !! "p"
     = Some ((values fresh !!! "p") ++ ["null"]).
Proof.
  apply (nil_struct_pointer_emits_null Encoder.NewEncoder
           (Encoder.encode Encoder.NewEncoder) (sampleField "P" "p" [])
           "*schema.Inner" tInner "p" [] fresh ∅).
  - reflexivity.
  - discriminate.
  - reflexivity.
  - reflexivity.
  - reflexivity.
Defined.

(** ** C10 *)

Lemma list_and_ordered_values_agree_witness :
  ListValues.Values samplePairs = UrlValues.Values (orderedOf samplePairs)
  /\ ListValues.Encode queryEscape samplePairs
     = UrlValues.Encode queryEscape (orderedOf samplePairs).
Proof.
  apply (list_and_ordered_values_agree queryEscape samplePairs).
  apply contiguousb_correct. vm_compute. reflexivity.
Defined.

Example samplePairs_render :
  ListValues.Encode queryEscape samplePairs = "a=1&a=2&b+c=3"
  /\ keys (orderedOf samplePairs) = ["a"; "b c"].
Proof. split; by vm_compute. Qed.

(** Without contiguous keys the two renderings differ. *)
Example interleaved_pairs_render :
  ListValues.Encode queryEscape
    [ {| ListValues.Key := "a"; ListValues.Value := "1" |};
      {| ListValues.Key := "b"; ListValues.Value := "2" |};
      {| ListValues.Key := "a"; ListValues.Value := "3" |} ]
  = "a=1&b=2&a=3"
  /\ UrlValues.Encode queryEscape
       (orderedOf
          [ {| ListValues.Key := "a"; ListValues.Value := "1" |};
            {| ListValues.Key := "b"; ListValues.Value := "2" |};
            {| ListValues.Key := "a"; ListValues.Value := "3" |} ])
     = "a=1&a=3&b=2".
Proof. split; by vm_compute. Qed.


(** * Further properties *)

(** ** removeKey *)

Lemma removeFirst_absent (key : string) (ks : list string) :
  key ∉ ks -> UrlValues.removeFirst key ks = ks.
Proof.
  induction ks as [|x ks IH]; [done|]. rewrite not_elem_of_cons. intros [Hne Hks].
  simpl. destruct (String.eqb_spec x key) as [->|_]; [done|]. by rewrite IH.
Qed.

Lemma removeFirst_split (key : string) (l1 l2 : list string) :
  key ∉ l1 -> UrlValues.removeFirst key (l1 ++ key :: l2) = l1 ++ l2.
Proof.
  induction l1 as [|x l1 IH]; simpl.
  - intros _. by rewrite String.eqb_refl.
  - rewrite not_elem_of_cons. intros [Hne Hl1].
    destruct (String.eqb_spec x key) as [->|_]; [done|]. by rewrite IH.
Qed.

(** X1: [removeKey] takes out the first occurrence of the key and nothing
    else: the keys before it and after it stay, in their order, a later
    occurrence of the key with them, and the map of values is not
    touched; when the key is not listed, nothing changes. *)
Theorem removeKey_first_occurrence
    (uv : UrlValues) (key : string) (l1 l2 : list string) :
  key ∉ l1 ->
  (keys uv = l1 ++ key :: l2 ->
   UrlValues.removeKey uv key = {| keys := l1 ++ l2; values := values uv |})
  /\ (keys uv = l1 -> UrlValues.removeKey uv key = uv).
Proof.
  intros Hl1. unfold UrlValues.removeKey. split; intros Hkeys; rewrite Hkeys.
  - by rewrite removeFirst_split.
  - rewrite removeFirst_absent by done. destruct uv. simpl in Hkeys. by subst.
Qed.

Lemma removeKey_first_occurrence_witness :
  (keys {| keys := ["a"; "b"; "c"; "b"]; values := ∅ |} = ["a"] ++ "b" :: ["c"; "b"] ->
   UrlValues.removeKey {| keys := ["a"; "b"; "c"; "b"]; values := ∅ |} "b"
   = {| keys := ["a"] ++ ["c"; "b"];
        values := values {| keys := ["a"; "b"; "c"; "b"]; values := ∅ |} |})
  /\ (keys {| keys := ["a"; "b"; "c"; "b"]; values := ∅ |} = ["a"] ->
      UrlValues.removeKey {| keys := ["a"; "b"; "c"; "b"]; values := ∅ |} "b"
      = {| keys := ["a"; "b"; "c"; "b"]; values := ∅ |}).
Proof.
  apply (removeKey_first_occurrence {| keys := ["a"; "b"; "c"; "b"]; values := ∅ |}
           "b" ["a"] ["c"; "b"]).
  vm_compute. set_solver.
Defined.

(** ** The rendered string *)

Lemma string_app_cons (x : ascii) (a b : string) :
  String.String x a +:+ b = String.String x (a +:+ b).
Proof. reflexivity. Qed.

Lemma string_app_assoc (a b c : string) : (a +:+ b) +:+ c = a +:+ b +:+ c.
Proof.
  induction a as [|x a IH]; [done|]. by rewrite !string_app_cons, IH.
Qed.

Lemma string_app_nil_r (a : string) : a +:+ "" = a.
Proof. induction a as [|x a IH]; [done|]. by rewrite string_app_cons, IH. Qed.

Lemma string_length_app (a b : string) :
  String.length (a +:+ b) = String.length a + String.length b.
Proof.
  induction a as [|x a IH]; [done|]. rewrite string_app_cons. simpl. by rewrite IH.
Qed.

Lemma concat_cons (sep x : string) (l : list string) :
  String.concat sep (x :: l)
  = x +:+ fold_right (fun y acc => sep +:+ y +:+ acc) "" l.
Proof.
  revert x. induction l as [|y l IH]; intros x.
  - simpl. by rewrite string_app_nil_r.
  - change (String.concat sep (x :: y :: l))
      with (x +:+ sep +:+ String.concat sep (y :: l)).
    by rewrite IH.
Qed.

Section Joined.
Variable QueryEscape : string -> string.

Lemma renderPairs_cons (p : string * string) (ps : list (string * string))
    (buf : string) :
  renderPairs QueryEscape (p :: ps) buf
  = renderPairs QueryEscape ps
      (UrlValues.writePair QueryEscape buf (QueryEscape p.1) p.2).
Proof. reflexivity. Qed.

Lemma renderPairs_nonempty (ps : list (string * string)) (buf : string) :
  0 < String.length buf ->
  renderPairs QueryEscape ps buf
  = buf +:+ fold_right (fun y acc => "&" +:+ y +:+ acc) ""
              (pairString QueryEscape <$> ps).
Proof.
  revert buf. induction ps as [|p ps IH]; intros buf Hbuf.
  - simpl. by rewrite string_app_nil_r.
  - rewrite renderPairs_cons.
    unfold UrlValues.writePair. rewrite bool_decide_true by done.
    rewrite IH.
    + rewrite fmap_cons. cbn [fold_right]. unfold pairString.
      by rewrite !string_app_assoc.
    + rewrite !string_length_app. simpl. lia.
Qed.

Lemma renderPairs_concat (ps : list (string * string)) :
  renderPairs QueryEscape ps ""
  = String.concat "&" (pairString QueryEscape <$> ps).
Proof.
  destruct ps as [|p ps]; [done|].
  rewrite fmap_cons, concat_cons.
  rewrite renderPairs_cons.
  unfold UrlValues.writePair. rewrite bool_decide_false by (simpl; lia).
  rewrite renderPairs_nonempty.
  - done.
  - rewrite !string_length_app. simpl. lia.
Qed.

(** X2: [UrlValues.Encode] is the pairs joined by [&], each pair its
    escaped key, [=] and its escaped value: the listed keys in their
    order, under each key its values in their order; a listed key without
    values, and a key of the map that is not listed, write nothing, and
    there is no [&] before the first pair or after the last. *)
Theorem UrlValues_Encode_joins_pairs (uv : UrlValues) :
  UrlValues.Encode QueryEscape uv
  = String.concat "&" (pairString QueryEscape <$> pairsOf uv).
Proof. by rewrite Encode_pairsOf, renderPairs_concat. Qed.

(** X3: the list-based [Encode] is its pairs, in the order of the list,
    joined by [&], each pair its escaped key, [=] and its escaped value;
    the empty list renders the empty string. *)
Theorem ListValues_Encode_joins_pairs (ps : ListValues.UrlValues) :
  ListValues.Encode QueryEscape ps
  = String.concat "&"
      ((fun p => QueryEscape (ListValues.Key p) +:+ "=" +:+ QueryEscape (ListValues.Value p))
         <$> ps).
Proof.
  rewrite ListValues_Encode_pairs, renderPairs_concat, <- list_fmap_compose.
  done.
Qed.

End Joined.

(** X4: the list-based [Values] maps each key of the list to the values
    of its pairs, in the order of the list, and has no entry for a key
    that is not in the list. *)
Theorem ListValues_Values_groups_by_key (ps : ListValues.UrlValues) (k : string) :
  ListValues.Values ps !! k
  = if decide (k ∈ ListValues.Key <$> ps)
    then Some (ListValues.Value <$> filter (fun p => ListValues.Key p = k) ps)
    else None.
Proof. apply lookup_Values. Qed.

(** X5: appending pairs one after the other to empty values, as the
    encoder does for a scalar field (lines 172-175), lists each key once,
    at its first occurrence, and gathers under a key its values in the
    order they were appended. *)
Theorem appendValue_builds_orderedOf (ps : ListValues.UrlValues) :
  fold_left
    (fun uv p => Encoder.appendValue uv (ListValues.Key p) (ListValues.Value p))
    ps {| keys := []; values := ∅ |}
  = {| keys := firstOccurrences (ListValues.Key <$> ps);
       values := list_to_map
                   ((fun k => (k, ListValues.Value
                                    <$> filter (fun p => ListValues.Key p = k) ps))
                      <$> firstOccurrences (ListValues.Key <$> ps)) |}.
Proof. apply orderedOf_appendValue. Qed.

(** ** What encode does to the values, step by step *)

(** Whatever relates values to what they become by one of the three
    changes the loop body makes (lines 172-175, 202-206 and 208) relates
    the values given to [encode] to the values it leaves. *)
Section EncodeSteps.
Variable R : UrlValues -> UrlValues -> Prop.
Hypothesis R_refl : forall uv, R uv uv.
Hypothesis R_trans : forall uv1 uv2 uv3, R uv1 uv2 -> R uv2 uv3 -> R uv1 uv3.
Hypothesis R_append : forall uv name value, R uv (Encoder.appendValue uv name value).
Hypothesis R_reset :
  forall uv name,
    R uv (Encoder.resetKey uv name)
    /\ is_Some (values (Encoder.resetKey uv name) !! name).
Hypothesis R_elem :
  forall uv name s,
    is_Some (values uv !! name) ->
    R uv {| keys := keys uv;
            values := <[name := (values uv !!! name) ++ [s]]> (values uv) |}.
Variable e : Encoder.

Lemma related_appendElems (f : encoderFunc) (name : string) (elems : list value) :
  forall uv uv',
    is_Some (values uv !! name) ->
    Encoder.appendElems f name elems uv = Ok uv' ->
    R uv uv'.
Proof.
  unfold Encoder.appendElems.
  induction elems as [|x elems IH]; intros uv uv' Hname; cbn [fold_left obind].
  { intros [= <-]. apply R_refl. }
  destruct (f x) as [s|]; cbn [obind].
  - intros Hrest. eapply R_trans; [by apply (R_elem uv name s)|].
    apply IH; [|done]. cbn [values]. rewrite lookup_insert_eq. by eexists.
  - intros Hpanic. exfalso. revert Hpanic. clear.
    induction elems as [|y elems IH]; [done|apply IH].
Qed.

Lemma related_encodeField
    (encode : value -> UrlValues -> outcome (UrlValues * option error))
    (field : StructField) (fv : value)
    (uv uv' : UrlValues) (errors errors' : gmap string error) :
  related R encode fv ->
  (forall n elem x, fv = VPtr n elem (Some x) -> related R encode x) ->
  Encoder.encodeField e encode field fv uv errors = Ok (uv', errors') ->
  R uv uv'.
Proof.
  intros Hself Hpointee. unfold Encoder.encodeField.
  destruct (fieldAlias field (tag (Encoder_cache e))) as [name opts].
  destruct (String.eqb name "-"); [intros [= <- _]; apply R_refl|].
  destruct (isValidStructPointer fv && _).
  { destruct fv as [| | | | | | | | | | n elem [x|] |]; try done.
    destruct (encode x uv) as [[uv1 err]|] eqn:Hx; [|done].
    intros [= <- _]. by eapply (Hpointee n elem x). }
  destruct (typeEncoder (Value_Type fv) (regenc e)) as [f|].
  { destruct (f fv) as [s|]; [|done]. cbn [obind].
    destruct (if Contains opts "omitempty" then isZero fv else Ok false)
      as [[|]|]; [| |done]; intros [= <- _]; [apply R_refl|apply R_append]. }
  case_bool_decide.
  { destruct (encode fv uv) as [[uv1 err]|] eqn:Hx; [|done].
    intros [= <- _]. by eapply Hself. }
  destruct (if bool_decide (Type_Kind (Value_Type fv) = Slice) then _ else _) as [f|];
    [|intros [= <- _]; apply R_refl].
  destruct (Elements fv) as [elems|]; [|done]. cbn [obind].
  destruct (bool_decide (length elems = 0) && Contains opts "omitempty");
    [intros [= <- _]; apply R_refl|].
  destruct (Encoder.appendElems f name elems (Encoder.resetKey uv name))
    as [uv1|] eqn:Happ; [|done].
  intros [= <- _]. destruct (R_reset uv name) as [Hreset Hname].
  eapply R_trans; [exact Hreset|]. by eapply related_appendElems.
Qed.

Lemma related_encodeLoop
    (encode : value -> UrlValues -> outcome (UrlValues * option error))
    (fs : list (StructField * value)) :
  Forall (fun f => related R encode f.2
                   /\ forall n elem x, f.2 = VPtr n elem (Some x) -> related R encode x) fs ->
  forall uv uv' errors errors',
    Encoder.encodeLoop e encode fs uv errors = Ok (uv', errors') ->
    R uv uv'.
Proof.
  induction 1 as [|[field fv] fs [Hself Hpointee] Hfs IH];
    intros uv uv' errors errors'.
  { intros [= <- _]. apply R_refl. }
  rewrite encodeLoop_cons.
  destruct (Encoder.encodeField e encode field fv uv errors)
    as [[uv1 errors1]|] eqn:Hfield; [|done].
  cbn [obind fst snd]. intros Hrest.
  eapply R_trans; [by eapply related_encodeField|by eapply IH].
Qed.

Lemma related_encode (v : value) : related R (Encoder.encode e) v.
Proof.
  cut (related R (Encoder.encode e) v
       /\ forall n elem x, v = VPtr n elem (Some x) -> related R (Encoder.encode e) x);
    [by intros []|].
  induction v as [| | | | | | | | |n iz fs IH| |n elem x [IHx _]| |] using value_ind';
    try (split; [intros uv uv' err [= <- _]; apply R_refl|done]).
  - split; [|done]. intros uv uv' err. cbn [Encoder.encode].
    unfold Encoder.encodeFields.
    destruct (Encoder.encodeLoop e (Encoder.encode e) fs uv ∅)
      as [[uv1 errors1]|] eqn:Hloop; [|done].
    cbn [obind fst snd].
    assert (R uv uv1) by by eapply related_encodeLoop.
    by case_bool_decide; intros [= <- _].
  - split; [|intros ? ? ? Heq; by injection Heq as _ _ <-].
    destruct x; try (intros uv uv' err [= <- _]; apply R_refl).
    exact IHx.
Qed.

End EncodeSteps.

Lemma resetKey_lookup (uv : UrlValues) (name : string) :
  values (Encoder.resetKey uv name) !! name = Some [].
Proof. unfold Encoder.resetKey. simpl. apply lookup_insert_eq. Qed.

Lemma resetKey_values (uv : UrlValues) (name : string) :
  values (Encoder.resetKey uv name) = <[name := []]> (values uv).
Proof. unfold Encoder.resetKey. by destruct (values uv !! name). Qed.

Lemma encode_dom (e : Encoder) (v : value) (uv uv' : UrlValues) (err : option error) :
  Encoder.encode e v uv = Ok (uv', err) ->
  dom (values uv) ⊆ dom (values uv').
Proof.
  apply (related_encode (fun uv uv' => dom (values uv) ⊆ dom (values uv'))).
  - done.
  - intros uv1 uv2 uv3 H12 H23. by etrans.
  - intros uv1 name value. unfold Encoder.appendValue. cbn [values].
    rewrite dom_insert_L. apply union_subseteq_r.
  - intros uv1 name. split; [|rewrite resetKey_lookup; by eexists].
    rewrite resetKey_values, dom_insert_L. apply union_subseteq_r.
  - intros uv1 name s _. cbn [values]. rewrite dom_insert_L. apply union_subseteq_r.
Qed.

(** X6: [Encode] never takes a key out of the map of the caller: every
    key the map had is a key of the map it leaves, whether the call
    returns an error or not. *)
Theorem Encode_never_deletes_a_key
    (e : Encoder) (src : value) (dst m : gmap string (list string))
    (err : option error) :
  Encoder.Encode e src dst = Ok (m, err) ->
  dom dst ⊆ dom m.
Proof.
  unfold Encoder.Encode.
  destruct (Encoder.encode e src {| keys := []; values := dst |})
    as [[uv' err']|] eqn:Hrun; [|done].
  intros [= <- _]. by apply (encode_dom e src _ _ _ Hrun).
Qed.

Lemma Encode_never_deletes_a_key_witness :
  dom ({[ "kept" := ["1"] ]} : gmap string (list string))
  ⊆ dom ({[ "kept" := ["1"]; "Name" := ["a"]; "Tags" := ["x"; "y"] ]}
          : gmap string (list string)).
Proof.
  apply (Encode_never_deletes_a_key Encoder.NewEncoder sampleTagged
           {[ "kept" := ["1"] ]}
           {[ "kept" := ["1"]; "Name" := ["a"]; "Tags" := ["x"; "y"] ]} None).
  vm_compute. reflexivity.
Defined.

Lemma keys_exact_appendValue (uv : UrlValues) (name value : string) :
  keys_exact uv -> keys_exact (Encoder.appendValue uv name value).
Proof.
  intros [Hnd Hin]. unfold Encoder.appendValue, keys_exact. cbn [keys values].
  destruct (values uv !! name) as [old|] eqn:Hold.
  - split; [done|]. intros k. rewrite lookup_insert. case_decide as Hk; [|apply Hin].
    subst k. split; [by eexists|]. intros _. apply Hin. by eexists.
  - assert (Hname : name ∉ keys uv).
    { intros Hk. apply Hin in Hk as [? Hk]. congruence. }
    split.
    + apply NoDup_app. split; [done|]. split; [|apply NoDup_singleton].
      intros k Hk Hk'. apply list_elem_of_singleton in Hk' as ->. done.
    + intros k. rewrite elem_of_app, list_elem_of_singleton, lookup_insert.
      case_decide as Hk; [subst k; split; [by eexists|by right]|].
      rewrite Hin. split; [by intros [|]|by left].
Qed.

Lemma keys_exact_resetKey (uv : UrlValues) (name : string) :
  keys_exact uv -> keys_exact (Encoder.resetKey uv name).
Proof.
  intros [Hnd Hin]. unfold keys_exact. rewrite resetKey_values.
  assert (Hkeys : keys (Encoder.resetKey uv name)
                  = filter (fun k => k ≠ name) (keys uv) ++ [name]).
  { unfold Encoder.resetKey.
    destruct (values uv !! name) as [old|] eqn:Hold; cbn [keys UrlValues.removeKey].
    - by rewrite removeFirst_filter.
    - f_equal. symmetry. apply filter_Forall_id, Forall_forall.
      intros k Hk ->. apply Hin in Hk as [? Hk]. congruence. }
  rewrite Hkeys. split.
  - apply NoDup_app. split; [by apply NoDup_filter|].
    split; [|apply NoDup_singleton].
    intros k Hk Hk'. apply list_elem_of_filter in Hk as [Hk _].
    by apply list_elem_of_singleton in Hk'.
  - intros k. rewrite elem_of_app, list_elem_of_singleton, list_elem_of_filter.
    rewrite lookup_insert. case_decide as Hk.
    + subst k. split; [by eexists|by right].
    + rewrite Hin. split; [intros [[_ ?]|]; done|intros ?; left; split; [congruence|done]].
Qed.

Lemma encode_keys_exact (e : Encoder) (v : value) (uv uv' : UrlValues)
    (err : option error) :
  Encoder.encode e v uv = Ok (uv', err) -> keys_exact uv -> keys_exact uv'.
Proof.
  apply (related_encode (fun uv uv' => keys_exact uv -> keys_exact uv')).
  - done.
  - intros uv1 uv2 uv3 H12 H23 H1. auto.
  - intros uv1 name value. apply keys_exact_appendValue.
  - intros uv1 name. split; [apply keys_exact_resetKey|].
    rewrite resetKey_lookup. by eexists.
  - intros uv1 name s Hname [Hnd Hin]. split; [done|]. cbn [keys values].
    intros k. rewrite lookup_insert. case_decide as Hk; [|apply Hin].
    subst k. split; [by eexists|]. intros _. by apply Hin.
Qed.

(** X7: the values [EncodeValues] returns list each key once, and the
    keys they list are the keys of their map: [Encode] renders every
    entry of [Values], and [Values] has an entry for every key listed. *)
Theorem EncodeValues_keys_exact
    (e : Encoder) (src : value) (uv : UrlValues) (err : option error) :
  Encoder.EncodeValues e src = Ok (Some uv, err) ->
  NoDup (keys uv)
  /\ forall k, k ∈ keys uv <-> is_Some (UrlValues.Values uv !! k).
Proof.
  unfold Encoder.EncodeValues.
  destruct (Encoder.encode e src {| keys := []; values := ∅ |})
    as [[uv' [err'|]]|] eqn:Hrun; [done| |done].
  intros [= <- _]. apply (encode_keys_exact e src _ _ _ Hrun).
  split; [constructor|]. intros k. cbn [keys values].
  rewrite lookup_empty. split; [by intros ?%elem_of_nil|by intros [? ?]].
Qed.

Lemma EncodeValues_keys_exact_witness :
  NoDup (keys {| keys := ["Name"; "Tags"];
                 values := {[ "Name" := ["a"]; "Tags" := ["x"; "y"] ]} |})
  /\ forall k,
       k ∈ keys {| keys := ["Name"; "Tags"];
                   values := {[ "Name" := ["a"]; "Tags" := ["x"; "y"] ]} |}
       <-> is_Some (UrlValues.Values
                      {| keys := ["Name"; "Tags"];
                         values := {[ "Name" := ["a"]; "Tags" := ["x"; "y"] ]} |} !! k).
Proof.
  apply (EncodeValues_keys_exact Encoder.NewEncoder sampleTagged
           {| keys := ["Name"; "Tags"];
              values := {[ "Name" := ["a"]; "Tags" := ["x"; "y"] ]} |} None).
  vm_compute. reflexivity.
Defined.

(** ** Fields left out, and structs within structs *)

Lemma encodeLoop_dash
    (e : Encoder) (encode : value -> UrlValues -> outcome (UrlValues * option error))
    (fs : list (StructField * value)) :
  forall uv errors,
    Encoder.encodeLoop e encode fs uv errors
    = Encoder.encodeLoop e encode (filter (fun f => aliasOf e f ≠ "-") fs) uv errors.
Proof.
  induction fs as [|[field fv] fs IH]; intros uv errors; [done|].
  destruct (decide (aliasOf e (field, fv) = "-")) as [Hdash|Hdash].
  - rewrite filter_cons_False by (intros Hne; by apply Hne).
    rewrite encodeLoop_cons, <- IH.
    unfold aliasOf in Hdash. cbn [fst] in Hdash. unfold Encoder.encodeField.
    destruct (fieldAlias field (tag (Encoder_cache e))) as [name opts].
    cbn [fst] in Hdash. subst name. by rewrite String.eqb_refl.
  - rewrite filter_cons_True by done. rewrite !encodeLoop_cons.
    destruct (Encoder.encodeField e encode field fv uv errors) as [[uv1 errors1]|];
      [|done].
    cbn [obind fst snd]. apply IH.
Qed.

(** X8: the fields whose alias is "-" can be taken out of a struct
    without changing anything of what [encode], [Encode] and
    [EncodeValues] return: not the values, not the errors, not a panic. *)
Theorem dash_fields_change_nothing
    (e : Encoder) (n : string) (iz : option bool)
    (fs : list (StructField * value)) (uv : UrlValues)
    (dst : gmap string (list string)) :
  Encoder.encode e (VStruct n iz fs) uv
  = Encoder.encode e (VStruct n iz (filter (fun f => aliasOf e f ≠ "-") fs)) uv
  /\ Encoder.Encode e (VStruct n iz fs) dst
     = Encoder.Encode e (VStruct n iz (filter (fun f => aliasOf e f ≠ "-") fs)) dst
  /\ Encoder.EncodeValues e (VStruct n iz fs)
     = Encoder.EncodeValues e (VStruct n iz (filter (fun f => aliasOf e f ≠ "-") fs)).
Proof.
  assert (Hall : forall uv, Encoder.encode e (VStruct n iz fs) uv
    = Encoder.encode e (VStruct n iz (filter (fun f => aliasOf e f ≠ "-") fs)) uv).
  { intros uv'. cbn [Encoder.encode]. unfold Encoder.encodeFields.
    by rewrite encodeLoop_dash. }
  split; [apply Hall|]. unfold Encoder.Encode, Encoder.EncodeValues.
  by rewrite !Hall.
Qed.



Section ValuesLeft.
Variable e : Encoder.
Variable encode : value -> UrlValues -> outcome (UrlValues * option error).

Lemma encodeField_valuesLeft (field : StructField) (fv : value) (uv : UrlValues)
    (errors1 errors2 : gmap string error) :
  valuesLeft (Encoder.encodeField e encode field fv uv errors1)
  = valuesLeft (Encoder.encodeField e encode field fv uv errors2).
Proof.
  destruct (Encoder.encodeField e encode field fv uv errors1)
    as [[uv1 errors1']|] eqn:H1.
  - destruct (encodeField_errors e encode _ _ _ _ _ _ H1) as (w & _ & Hw).
    by rewrite (Hw errors2).
  - destruct (Encoder.encodeField e encode field fv uv errors2)
      as [[uv2 errors2']|] eqn:H2; [|done].
    destruct (encodeField_errors e encode _ _ _ _ _ _ H2) as (w & _ & Hw).
    rewrite (Hw errors1) in H1. done.
Qed.

Lemma encodeLoop_valuesLeft (fs : list (StructField * value)) :
  forall uv errors1 errors2,
    valuesLeft (Encoder.encodeLoop e encode fs uv errors1)
    = valuesLeft (Encoder.encodeLoop e encode fs uv errors2).
Proof.
  induction fs as [|[field fv] fs IH]; intros uv errors1 errors2; [done|].
  rewrite !encodeLoop_cons.
  pose proof (encodeField_valuesLeft field fv uv errors1 errors2) as Hfield.
  destruct (Encoder.encodeField e encode field fv uv errors1) as [[uv1 e1]|],
           (Encoder.encodeField e encode field fv uv errors2) as [[uv2 e2]|];
    try done.
  injection Hfield as <-. cbn [obind fst snd]. apply IH.
Qed.

Lemma encodeLoop_app_valuesLeft (fs1 fs2 : list (StructField * value))
    (uv : UrlValues) (errors : gmap string error) :
  valuesLeft (Encoder.encodeLoop e encode (fs1 ++ fs2) uv errors)
  = uv1 <-! valuesLeft (Encoder.encodeLoop e encode fs1 uv errors) ;;
    valuesLeft (Encoder.encodeLoop e encode fs2 uv1 ∅).
Proof.
  rewrite encodeLoop_app.
  destruct (Encoder.encodeLoop e encode fs1 uv errors) as [[uv1 errors1]|]; [|done].
  cbn [obind fst snd valuesLeft]. apply encodeLoop_valuesLeft.
Qed.

End ValuesLeft.

Lemma encodeFields_valuesLeft (e : Encoder)
    (encode : value -> UrlValues -> outcome (UrlValues * option error))
    (fs : list (StructField * value)) (uv : UrlValues) :
  valuesLeft (Encoder.encodeFields e encode fs uv)
  = valuesLeft (Encoder.encodeLoop e encode fs uv ∅).
Proof.
  unfold Encoder.encodeFields.
  destruct (Encoder.encodeLoop e encode fs uv ∅) as [[uv1 errors1]|]; [|done].
  cbn [obind fst snd]. by case_bool_decide.
Qed.

(** X10: a field holding a struct whose type has no registered encoder
    is flattened: the values [encode] leaves are the values it leaves for
    the struct in which the fields of the nested struct stand in the
    place of the field, and it panics on the one exactly when it panics
    on the other. *)
Theorem nested_struct_is_flattened
    (e : Encoder) (n : string) (iz0 : option bool)
    (fs1 fs2 : list (StructField * value)) (field : StructField)
    (sn : string) (iz : option bool) (inner : list (StructField * value))
    (uv : UrlValues) :
  aliasOf e (field, VStruct sn iz inner) ≠ "-" ->
  regenc e !! TBasic sn Struct = None ->
  valuesLeft (Encoder.encode e
                (VStruct n iz0 (fs1 ++ (field, VStruct sn iz inner) :: fs2)) uv)
  = valuesLeft (Encoder.encode e (VStruct n iz0 (fs1 ++ inner ++ fs2)) uv).
Proof.
  intros Hname Hreg. cbn [Encoder.encode]. rewrite !encodeFields_valuesLeft.
  rewrite !encodeLoop_app_valuesLeft.
  destruct (valuesLeft (Encoder.encodeLoop e (Encoder.encode e) fs1 uv ∅))
    as [uv1|]; [|done].
  cbn [obind]. rewrite encodeLoop_app_valuesLeft, encodeLoop_cons.
  assert (Hfield : forall errors,
    Encoder.encodeField e (Encoder.encode e) field (VStruct sn iz inner) uv1 errors
    = r <-! Encoder.encode e (VStruct sn iz inner) uv1 ;;
      Ok (r.1, Encoder.recordError errors sn r.2)).
  { intros errors. unfold Encoder.encodeField.
    unfold aliasOf in Hname. cbn [fst] in Hname.
    destruct (fieldAlias field (tag (Encoder_cache e))) as [name opts].
    cbn [fst] in Hname. apply String.eqb_neq in Hname. rewrite Hname.
    change (isValidStructPointer (VStruct sn iz inner)) with false.
    cbn [andb Value_Type typeEncoder Type_Kind Type_String]. rewrite Hreg.
    by rewrite bool_decide_true. }
  rewrite Hfield.
  pose proof (encodeFields_valuesLeft e (Encoder.encode e) inner uv1) as Hinner.
  cbn [Encoder.encode].
  destruct (Encoder.encodeFields e (Encoder.encode e) inner uv1) as [[uv2 err2]|],
           (Encoder.encodeLoop e (Encoder.encode e) inner uv1 ∅) as [[uv3 errors3]|];
    try done.
  injection Hinner as <-. cbn [obind fst snd valuesLeft].
  apply encodeLoop_valuesLeft.
Qed.

Lemma nested_struct_is_flattened_witness :
  valuesLeft (Encoder.encode Encoder.NewEncoder
                (VStruct "schema.Outer" None
                   ([(sampleField "B" "b" [], vString "2")]
                    ++ (sampleField "In" "in" [],
                        VStruct "schema.Inner" None
                          [(sampleField "X" "x" [], vStrings ["x"; "y"])])
                       :: [(sampleField "C" "c" [], vInt 3)])) fresh)
  = valuesLeft (Encoder.encode Encoder.NewEncoder
                  (VStruct "schema.Outer" None
                     ([(sampleField "B" "b" [], vString "2")]
                      ++ [(sampleField "X" "x" [], vStrings ["x"; "y"])]
                      ++ [(sampleField "C" "c" [], vInt 3)])) fresh).
Proof.
  apply (nested_struct_is_flattened Encoder.NewEncoder "schema.Outer" None
           [(sampleField "B" "b" [], vString "2")]
           [(sampleField "C" "c" [], vInt 3)]
           (sampleField "In" "in" []) "schema.Inner" None
           [(sampleField "X" "x" [], vStrings ["x"; "y"])] fresh).
  - vm_compute. discriminate.
  - reflexivity.
Defined.

(** ** A field encoded again *)

(** X11: encoding a slice field a second time into the values the first
    time left changes nothing: the first time put the key at the end
    with the elements as its values, and the second time removes it from
    there and puts the same back. *)
Theorem slice_field_twice_is_once
    (e : Encoder) (encode : value -> UrlValues -> outcome (UrlValues * option error))
    (field : StructField) (n : string) (elem : rtype) (s : option (list value))
    (f : encoderFunc) (strs : list string) (name : string) (opts : tagOptions)
    (uv : UrlValues) (errors : gmap string error) :
  fieldAlias field (tag (Encoder_cache e)) = (name, opts) ->
  name ≠ "-" ->
  regenc e !! TSlice n elem = None ->
  typeEncoder elem (regenc e) = Some f ->
  Forall2 (fun x str => f x = Ok str) (default [] s) strs ->
  bool_decide (length (default [] s) = 0) && Contains opts "omitempty" = false ->
  keys_ok uv ->
  exists uv1,
    Encoder.encodeField e encode field (VSlice n elem s) uv errors = Ok (uv1, errors)
    /\ Encoder.encodeField e encode field (VSlice n elem s) uv1 errors = Ok (uv1, errors).
Proof.
  intros Halias Hname Hreg Hf Hall Homit [Hnd Hin].
  eexists. split; [by eapply encodeField_slice|].
  rewrite (encodeField_slice e encode field n elem s f strs name opts) by done.
  cbn [values]. rewrite insert_insert_eq. do 2 f_equal.
  assert (Hkeys : exists ks, keys (Encoder.resetKey uv name) = ks ++ [name] /\ name ∉ ks).
  { unfold Encoder.resetKey.
    destruct (values uv !! name) as [old|] eqn:Hold; cbn [keys UrlValues.removeKey].
    - exists (filter (fun k => k ≠ name) (keys uv)).
      rewrite removeFirst_filter by done. split; [done|].
      rewrite list_elem_of_filter. by intros [? _].
    - exists (keys uv). split; [done|].
      intros Hk. apply Hin in Hk as [? Hk]. congruence. }
  destruct Hkeys as (ks & Hks & Hname').
  unfold Encoder.resetKey at 1. cbn [values keys].
  rewrite lookup_insert_eq. cbn [UrlValues.removeKey keys].
  by rewrite Hks, removeFirst_split, app_nil_r.
Qed.

Lemma slice_field_twice_is_once_witness :
  exists uv1,
    Encoder.encodeField Encoder.NewEncoder (Encoder.encode Encoder.NewEncoder)
      (sampleField "Tags" "tags" []) (vStrings ["x"; "y"]) tagsBefore ∅
    = Ok (uv1, ∅)
    /\ Encoder.encodeField Encoder.NewEncoder (Encoder.encode Encoder.NewEncoder)
         (sampleField "Tags" "tags" []) (vStrings ["x"; "y"]) uv1 ∅
       = Ok (uv1, ∅).
Proof.
  apply (slice_field_twice_is_once Encoder.NewEncoder
           (Encoder.encode Encoder.NewEncoder) (sampleField "Tags" "tags" [])
           "[]string" tString (Some (vString <$> ["x"; "y"])) encodeString
           ["x"; "y"] "tags" [] tagsBefore ∅).
  - reflexivity.
  - discriminate.
  - reflexivity.
  - reflexivity.
  - repeat constructor.
  - reflexivity.
  - split.
    + vm_compute. repeat constructor; set_solver.
    + intros k Hk. vm_compute in Hk.
      apply elem_of_cons in Hk as [->|Hk]; [by eexists|].
      apply list_elem_of_singleton in Hk as ->. by eexists.
Defined.

(** X12: a field encoded by the encoder resolved for its type, into
    values in which its key has entries: the string is appended after
    them and the keys stay as they are, so that encoding the field again
    adds its string once more; the prior entries are never replaced. *)
Theorem scalar_field_appends_to_its_key
    (e : Encoder) (encode : value -> UrlValues -> outcome (UrlValues * option error))
    (field : StructField) (fv : value) (f : encoderFunc) (s : string)
    (name : string) (opts : tagOptions) (old : list string)
    (uv : UrlValues) (errors : gmap string error) :
  fieldAlias field (tag (Encoder_cache e)) = (name, opts) ->
  name ≠ "-" ->
  isValidStructPointer fv && negb (Encoder.hasCustomEncoder e (Value_Type fv)) = false ->
  typeEncoder (Value_Type fv) (regenc e) = Some f ->
  f fv = Ok s ->
  (if Contains opts "omitempty" then isZero fv else Ok false) = Ok false ->
  values uv !! name = Some old ->
  Encoder.encodeField e encode field fv uv errors
  = Ok ({| keys := keys uv; values := <[name := old ++ [s]]> (values uv) |}, errors)
  /\ Encoder.encodeField e encode field fv
       {| keys := keys uv; values := <[name := old ++ [s]]> (values uv) |} errors
     = Ok ({| keys := keys uv; values := <[name := old ++ [s; s]]> (values uv) |},
           errors).
Proof.
  intros Halias Hname Hptr Hf Hs Hskip Hold.
  assert (Hstep : forall uv' cur, values uv' !! name = Some cur ->
    Encoder.encodeField e encode field fv uv' errors
    = Ok ({| keys := keys uv'; values := <[name := cur ++ [s]]> (values uv') |}, errors)).
  { intros uv' cur Hcur. unfold Encoder.encodeField. rewrite Halias.
    apply String.eqb_neq in Hname. rewrite Hname, Hptr, Hf, Hs.
    cbn [obind]. rewrite Hskip. cbn [obind]. unfold Encoder.appendValue.
    by rewrite Hcur, (lookup_total_correct _ _ _ Hcur). }
  split; [by apply Hstep|].
  rewrite (Hstep _ (old ++ [s])) by (cbn [values]; apply lookup_insert_eq).
  cbn [keys values]. by rewrite insert_insert_eq, <- app_assoc.
Qed.

Lemma scalar_field_appends_to_its_key_witness :
  Encoder.encodeField Encoder.NewEncoder (Encoder.encode Encoder.NewEncoder)
    (sampleField "Name" "name" []) (vString "m") tagsBefore ∅
  = Ok ({| keys := keys tagsBefore;
           values := <["name" := ["n"] ++ ["m"]]> (values tagsBefore) |}, ∅)
  /\ Encoder.encodeField Encoder.NewEncoder (Encoder.encode Encoder.NewEncoder)
       (sampleField "Name" "name" []) (vString "m")
       {| keys := keys tagsBefore;
          values := <["name" := ["n"] ++ ["m"]]> (values tagsBefore) |} ∅
     = Ok ({| keys := keys tagsBefore;
              values := <["name" := ["n"] ++ ["m"; "m"]]> (values tagsBefore) |}, ∅).
Proof.
  apply (scalar_field_appends_to_its_key Encoder.NewEncoder
           (Encoder.encode Encoder.NewEncoder) (sampleField "Name" "name" [])
           (vString "m") encodeString "m" "name" [] ["n"] tagsBefore ∅);
    try reflexivity.
  discriminate.
Defined.

(** ** Errors *)

(** X13: the errors are kept by the name of the type, so that two
    fields without encoder whose types have the same name leave one entry,
    the error of the later field; the error of the earlier one is lost. *)
Theorem same_type_errors_overwrite
    (e : Encoder) (encode : value -> UrlValues -> outcome (UrlValues * option error))
    (field1 field2 : StructField) (fv1 fv2 : value)
    (uv : UrlValues) (errors : gmap string error) :
  unencodable e (field1, fv1) = true ->
  unencodable e (field2, fv2) = true ->
  Type_String (Value_Type fv1) = Type_String (Value_Type fv2) ->
  Encoder.encodeLoop e encode [(field1, fv1); (field2, fv2)] uv errors
  = Ok (uv, <[Type_String (Value_Type fv2) := encoderNotFound fv2]> errors).
Proof.
  intros H1 H2 Hsame.
  destruct (unencodable_spec e _ _ H1) as (Hn1 & Hnone1 & Hs1 & Hsl1).
  destruct (unencodable_spec e _ _ H2) as (Hn2 & Hnone2 & Hs2 & Hsl2).
  rewrite encodeLoop_cons.
  rewrite (encodeField_no_encoder e encode field1 fv1 uv errors) by done.
  cbn [obind fst snd]. rewrite encodeLoop_cons.
  rewrite (encodeField_no_encoder e encode field2 fv2 uv) by done.
  cbn [obind fst snd]. rewrite encodeLoop_nil, Hsame. by rewrite insert_insert_eq.
Qed.

Lemma same_type_errors_overwrite_witness :
  Encoder.encodeLoop Encoder.NewEncoder (Encoder.encode Encoder.NewEncoder)
    [(sampleField "M" "m" [], vMap);
     (sampleField "N" "n" [], VMap "map[string]int" None)] fresh ∅
  = Ok (fresh,
        <[Type_String (Value_Type (VMap "map[string]int" None))
            := encoderNotFound (VMap "map[string]int" None)]> ∅).
Proof.
  apply (same_type_errors_overwrite Encoder.NewEncoder
           (Encoder.encode Encoder.NewEncoder)
           (sampleField "M" "m" []) (sampleField "N" "n" [])
           vMap (VMap "map[string]int" None) fresh ∅); reflexivity.
Defined.

(** X14: what [encode] returns beside the values is nil, the structural
    error, or a [MultiError] that is not empty: the structural error only
    for a value that is no struct after one dereference, and then with
    the values as they were; a [MultiError] only for a struct. *)
Theorem encode_error_shape
    (e : Encoder) (v : value) (uv uv' : UrlValues) (err : option error) :
  Encoder.encode e v uv = Ok (uv', err) ->
  match err with
  | None => Value_Kind (if bool_decide (Value_Kind v = Ptr) then Elem v else v) = Struct
  | Some (errorString s) =>
      s = "schema: interface must be a struct"
      /\ Value_Kind (if bool_decide (Value_Kind v = Ptr) then Elem v else v) ≠ Struct
      /\ uv' = uv
  | Some (MultiError m) =>
      m ≠ ∅
      /\ Value_Kind (if bool_decide (Value_Kind v = Ptr) then Elem v else v) = Struct
  | Some (encoderNotFound _) => False
  end.
Proof.
  rewrite encode_unfold. cbn zeta.
  set (v' := if bool_decide (Value_Kind v = Ptr) then Elem v else v).
  case_bool_decide as Hk.
  - by intros [= <- <-].
  - assert (Hs : Value_Kind v' = Struct) by (by destruct (decide (Value_Kind v' = Struct))).
    unfold Encoder.encodeFields.
    destruct (Encoder.encodeLoop e (Encoder.encode e) (Fields v') uv ∅)
      as [[uv1 errors1]|]; [|done].
    cbn [obind fst snd]. case_bool_decide as Hsize; intros [= <- <-]; [|done].
    split; [|done]. intros ->. rewrite map_size_empty in Hsize. lia.
Qed.

Lemma encode_error_shape_witness :
  ({[ "map[string]int" := encoderNotFound vMap ]} : gmap string error) ≠ ∅
  /\ Value_Kind (if bool_decide (Value_Kind (VStruct "schema.S" None sampleMixed) = Ptr)
                 then Elem (VStruct "schema.S" None sampleMixed)
                 else VStruct "schema.S" None sampleMixed) = Struct.
Proof.
  apply (encode_error_shape Encoder.NewEncoder (VStruct "schema.S" None sampleMixed)
           fresh sampleRest
           (Some (MultiError {[ "map[string]int" := encoderNotFound vMap ]}))).
  vm_compute. reflexivity.
Defined.

(** ** Pointers to types without encoder *)

(** X15: for a pointer type without an encoder of its own whose pointee
    type resolves no encoder, an encoder is resolved all the same: it
    returns "null" on the nil pointer and panics on every other one, and
    with it the loop over the fields of a struct that holds such a
    pointer to a value that is no struct. *)
Theorem pointer_without_pointee_encoder_panics
    (e : Encoder) (encode : value -> UrlValues -> outcome (UrlValues * option error))
    (field : StructField) (n : string) (elem : rtype) (x : value)
    (fs : list (StructField * value)) (uv : UrlValues) (errors : gmap string error) :
  regenc e !! TPtr n elem = None ->
  typeEncoder elem (regenc e) = None ->
  (fieldAlias field (tag (Encoder_cache e))).1 ≠ "-" ->
  Value_Kind x ≠ Struct ->
  (exists g,
     typeEncoder (TPtr n elem) (regenc e) = Some g
     /\ g (VPtr n elem None) = Ok "null"
     /\ forall y, g (VPtr n elem (Some y)) = Panic)
  /\ Encoder.encodeLoop e encode ((field, VPtr n elem (Some x)) :: fs) uv errors = Panic.
Proof.
  intros Hreg Helem Hname Hkind. split.
  { exists (ptrEncoder None). by rewrite typeEncoder_pointer, Helem. }
  rewrite encodeLoop_cons. unfold Encoder.encodeField.
  destruct (fieldAlias field (tag (Encoder_cache e))) as [name opts].
  cbn [fst] in Hname. apply String.eqb_neq in Hname. rewrite Hname.
  assert (Hptr : isValidStructPointer (VPtr n elem (Some x)) = false).
  { unfold isValidStructPointer. cbn [Elem]. fold (Value_Kind x).
    by rewrite (bool_decide_false (Value_Kind x = Struct)), andb_false_r. }
  rewrite Hptr. cbn [andb]. cbn [Value_Type].
  by rewrite typeEncoder_pointer, Helem.
Qed.

Lemma pointer_without_pointee_encoder_panics_witness :
  (exists g,
     typeEncoder (TPtr "*map[string]int" tMap) (regenc Encoder.NewEncoder) = Some g
     /\ g (VPtr "*map[string]int" tMap None) = Ok "null"
     /\ forall y, g (VPtr "*map[string]int" tMap (Some y)) = Panic)
  /\ Encoder.encodeLoop Encoder.NewEncoder (Encoder.encode Encoder.NewEncoder)
       ((sampleField "P" "p" [], VPtr "*map[string]int" tMap (Some vMap))
          :: [(sampleField "A" "a" [], vString "x")]) fresh ∅
     = Panic.
Proof.
  apply (pointer_without_pointee_encoder_panics Encoder.NewEncoder
           (Encoder.encode Encoder.NewEncoder) (sampleField "P" "p" [])
           "*map[string]int" tMap vMap [(sampleField "A" "a" [], vString "x")] fresh ∅).
  - reflexivity.
  - reflexivity.
  - vm_compute. discriminate.
  - vm_compute. discriminate.
Defined.

(** ** isZero *)

Lemma isZero_fold_false {A : Type} (g : A -> outcome bool) (l : list A) :
  fold_left (fun z x => z <-! z ;; if z : bool then g x else Ok false) l (Ok false)
  = Ok false.
Proof. induction l as [|x l IH]; [done|apply IH]. Qed.

Lemma isZero_fold_panic {A : Type} (g : A -> outcome bool) (l : list A) :
  fold_left (fun z x => z <-! z ;; if z : bool then g x else Ok false) l Panic
  = Panic.
Proof. induction l as [|x l IH]; [done|apply IH]. Qed.

Lemma isZero_fold_true {A : Type} (g : A -> outcome bool) (l : list A) :
  fold_left (fun z x => z <-! z ;; if z : bool then g x else Ok false) l (Ok true)
  = Ok true
  <-> Forall (fun x => g x = Ok true) l.
Proof.
  induction l as [|x l IH]; [by split; [constructor|]|].
  cbn [fold_left obind]. rewrite Forall_cons.
  destruct (g x) as [[|]|] eqn:Hx.
  - rewrite IH. naive_solver.
  - rewrite isZero_fold_false. naive_solver.
  - rewrite isZero_fold_panic. naive_solver.
Qed.


Lemma isZero_struct_fold (n : string) (fs : list (StructField * value)) :
  isZero (VStruct n None fs)
  = fold_left (fun z f => z <-! z ;; if z : bool then isZero f.2 else Ok false)
      fs (Ok true).
Proof.
  cbn [isZero]. generalize (Ok true : outcome bool).
  induction fs as [|[sf x] fs IH]; intros z; [done|]. cbn [fold_left]. apply IH.
Qed.

(** X16: a struct whose type has no [IsZero] is zero exactly when each
    of its fields is, and an array exactly when each of its elements is;
    a struct whose type has [IsZero] is zero exactly when the method says
    so, whatever its fields hold. *)
Theorem isZero_struct_and_array
    (n : string) (fs : list (StructField * value)) (elems : list value) (b : bool) :
  (isZero (VStruct n None fs) = Ok true
   <-> Forall (fun f => isZero f.2 = Ok true) fs)
  /\ (isZero (VArray n elems) = Ok true
      <-> Forall (fun x => isZero x = Ok true) elems)
  /\ isZero (VStruct n (Some b) fs) = Ok b.
Proof.
  split; [|split; [|done]].
  - rewrite isZero_struct_fold. apply (isZero_fold_true (fun f => isZero f.2)).
  - apply (isZero_fold_true isZero).
Qed.



(** ** The registry *)

(** X18: registering an encoder for a type changes the resolution of
    that type and of the pointers to it, and of no other type; the alias
    tag name is left as it was, and [SetAliasTag] leaves the registry as
    it was. *)
Theorem RegisterEncoder_frame
    (e : Encoder) (x : value) (f : encoderFunc) (t' : rtype) (tagName : string) :
  resolvesThrough t' (Value_Type x) = false ->
  typeEncoder t' (regenc (Encoder.RegisterEncoder e x f)) = typeEncoder t' (regenc e)
  /\ Encoder_cache (Encoder.RegisterEncoder e x f) = Encoder_cache e
  /\ regenc (Encoder.SetAliasTag e tagName) = regenc e.
Proof.
  intros Hpath. split; [|done]. cbn [Encoder.RegisterEncoder regenc].
  induction t' as [n k|n elem IH|n elem IH]; cbn [resolvesThrough] in Hpath;
    apply orb_false_elim in Hpath as [Hne Hrest];
    apply bool_decide_eq_false in Hne;
    cbn [typeEncoder]; rewrite lookup_insert_ne by done; [done| |done].
  by rewrite (IH Hrest).
Qed.

Lemma RegisterEncoder_frame_witness :
  typeEncoder tStrings
    (regenc (Encoder.RegisterEncoder Encoder.NewEncoder (vInt 0) joined))
  = typeEncoder tStrings (regenc Encoder.NewEncoder)
  /\ Encoder_cache (Encoder.RegisterEncoder Encoder.NewEncoder (vInt 0) joined)
     = Encoder_cache Encoder.NewEncoder
  /\ regenc (Encoder.SetAliasTag Encoder.NewEncoder "url") = regenc Encoder.NewEncoder.
Proof.
  apply (RegisterEncoder_frame Encoder.NewEncoder (vInt 0) joined tStrings "url").
  reflexivity.
Defined.

(** ** The built-in encoders *)

(** X19: for a value that is no pointer and whose type has no registered
    encoder, an encoder is resolved exactly when the value is a boolean,
    an integer other than a [uintptr], a floating-point number or a
    string, and the encoder resolved for the type of the value returns
    on the value: "true" or "false", the decimal digits, the fixed-point
    form with six digits at the bit size of the kind, or the string
    itself. *)
Theorem builtin_encoder_of_a_value (reg : gmap rtype encoderFunc) (v : value) :
  reg !! Value_Type v = None ->
  Value_Kind v ≠ Ptr ->
  match scalarString v with
  | Some s => exists f, typeEncoder (Value_Type v) reg = Some f /\ f v = Ok s
  | None => typeEncoder (Value_Type v) reg = None
  end.
Proof.
  intros Hreg Hk.
  destruct v as [| | ? k ?| ? k ?| ? k ?| | ? k ?| | | | |]; try destruct k;
    try (exfalso; by apply Hk);
    simpl in Hreg; simpl; unfold nilType in *; rewrite Hreg; try done; by eexists.
Qed.

Lemma builtin_encoder_of_a_value_witness :
  exists f, typeEncoder (Value_Type (vInt (-12))) ∅ = Some f
            /\ f (vInt (-12)) = Ok "-12".
Proof.
  apply (builtin_encoder_of_a_value ∅ (vInt (-12))).
  - reflexivity.
  - vm_compute. discriminate.
Defined.
